(** * Morton ND: the LUT-based N-dimensional Morton encoder

    A shallow embedding of [include/morton-nd/mortonND_LUT_encoder.h] and a
    verification of its encoding contract.

    Template arguments become ordinary arguments (a [Config]); the class
    literal becomes a record holding its only data member, the lookup table;
    [static_assert]s become a boolean check on construction; parameter packs
    become lists.  Integers of C++ are integers of [Z] with every
    conversion and wrap-around written out. *)

From Stdlib Require Import ZArith List Bool Lia Btauto QArith Qround.
Import ListNotations.

Local Open Scope Z_scope.
Local Open Scope bool_scope.

(** ** The compilation target

    The repository's test build is GCC with [-m64]: [std::size_t] has 64
    value bits and [int] has 31 (plus sign). *)

Module Target.

Definition size_t_digits : Z := 64.
Definition int_digits : Z := 31.

(** Conversion of an integer value to an unsigned type of [w] value bits. *)
Definition to_unsigned (w x : Z) : Z := x mod 2 ^ w.

(** Conversion to [std::size_t], and the arithmetic of [std::size_t]. *)
Definition to_size_t (x : Z) : Z := to_unsigned size_t_digits x.

(** A type [T], by the traits the code queries ([is_integral],
    [is_unsigned], [digits], constructibility of [std::size_t]) and the one
    the specification speaks of ([is_signed]). *)
Record CType : Set := mkCType {
  is_integral : bool;          (* std::is_integral<T>::value *)
  is_signed : bool;            (* std::is_signed<T>::value *)
  is_unsigned : bool;          (* std::is_unsigned<T>::value *)
  digits : Z;                  (* std::numeric_limits<T>::digits *)
  size_t_constructible : bool  (* std::is_constructible<std::size_t, T>::value *)
}.

Definition uint8_t : CType := mkCType true false true 8 true.
Definition uint16_t : CType := mkCType true false true 16 true.
Definition uint32_t : CType := mkCType true false true 32 true.
Definition uint64_t : CType := mkCType true false true 64 true.
Definition int32_t : CType := mkCType true true false 31 true.
Definition int64_t : CType := mkCType true true false 63 true.
Definition double_t : CType := mkCType false true false 53 true.

(** Integral promotion: an operand of an integral type all of whose values
    fit in [int] is converted to [int] before [~], [<<], [>>], [|], [&]. *)
Definition promotes_to_int (ty : CType) : bool :=
  is_integral ty && (digits ty <=? int_digits).

(** [~x] for an operand [x] of type [ty]: computed in [int] after
    promotion, in the unsigned type [ty] itself otherwise. *)
Definition bit_not (ty : CType) (x : Z) : Z :=
  if promotes_to_int ty then Z.lnot x else to_unsigned (digits ty) (Z.lnot x).

End Target.

Import Target.

Module mortonnd.

(** [template<std::size_t BitsRemaining> constexpr auto SplitByN(std::size_t
    input, std::size_t fields)] with its specialisation [SplitByN<1>].
    All arithmetic is in [std::size_t].  [SplitByN<0>] has no finite
    instantiation (the primary template would ask for
    [SplitByN<SIZE_MAX>]); the class excludes it with
    [static_assert(LutBits > 0)], and the value given to it here is never
    used by a constructed encoder. *)
Fixpoint SplitByN (BitsRemaining : nat) (input fields : Z) : Z :=
  match BitsRemaining with
  | O => 0
  | S n =>
      match n with
      | O => Z.land input 1
      | S _ =>
          Z.lor (to_size_t (Z.shiftl (SplitByN n (Z.shiftr input 1) fields) fields))
                (Z.land input 1)
      end
  end.

(** Template arguments of [MortonNDLutEncoder<Dimensions, FieldBits,
    LutBits, T>]; the first three are [std::size_t] values. *)
Record Config : Set := mkConfig {
  Dimensions : Z;
  FieldBits : Z;
  LutBits : Z;
  T : CType
}.

(** Modelled from the spec: [MinInt<Bits>] of the absent header
    [mortonND_LUT.h], the narrowest unsigned native type that holds [Bits]
    bits (for [Bits <= 64]). *)
Definition MinInt (Bits : Z) : CType :=
  if Bits <=? 8 then uint8_t
  else if Bits <=? 16 then uint16_t
  else if Bits <=? 32 then uint32_t
  else uint64_t.

(** Modelled from the spec: [FastInt<Bits>] of the absent header
    [mortonND_LUT.h], the default of [T]: the narrowest unsigned type that
    fits [Bits] bits (for [Bits <= 64]). *)
Definition FastInt (Bits : Z) : CType := MinInt Bits.

(** [std::make_index_sequence<N>]: the pack 0, 1, ..., N-1. *)
Definition make_index_sequence (N : Z) : list Z :=
  map Z.of_nat (seq 0 (Z.to_nat N)).

Module MortonNDLutEncoder.

(** The object: its one data member. *)
Record t : Set := mk { LookupTable : list Z }.

Section Class.

Variable c : Config.

Let D := Dimensions c.
Let F := FieldBits c.
Let L := LutBits c.
Let Ty := T c.

Definition LutValueWidth : Z := to_size_t (L * D).

(** The class's [static_assert]s, in source order. *)
Definition static_asserts : bool :=
  (0 <? D) && (0 <? F) && (0 <? L) && (L <=? F)
  && (L <=? 32)
  && (LutValueWidth <=? 64)
  && (LutValueWidth <=? size_t_digits)
  && (negb (is_integral Ty) || (to_size_t (D * F) <=? digits Ty))
  && (negb (is_integral Ty) || is_unsigned Ty)
  && size_t_constructible Ty.

Definition ChunkCount : Z := to_size_t (1 + to_size_t (F - 1) / L).

(** Conversion to [T] (for an unsigned integral [T]).  The functions below
    return [T]: the value of the returned expression is written exactly and
    converted on return.  For a [T] at least as wide as [unsigned int] the
    operators [<<] and [|] work in [T], modulo [2 ^ digits]; for a narrower
    [T] they work in [int] after promotion and the result is cut to [T] by
    the return.  Both give the low [digits] bits of the exact value. *)
Definition to_T (x : Z) : Z := to_unsigned (digits Ty) x.

(** [InputMask()]: a [static_assert] admits integral [T] only, then
    [return ~T(0) >> (std::numeric_limits<T>::digits - FieldBits);]
    The operand of [~] is promoted; the result is converted to [T] on
    return.  Right shift of a negative [int] is arithmetic (GCC). *)
Definition InputMask : option Z :=
  if is_integral Ty
  then Some (to_T (Z.shiftr (bit_not Ty (to_T 0)) (to_size_t (digits Ty - F))))
  else None.

Definition LutValue : CType := MinInt LutValueWidth.

(** [static constexpr LutValue SplitByN(std::size_t input)]. *)
Definition SplitByN (input : Z) : Z :=
  to_unsigned (digits LutValue) (mortonnd.SplitByN (Z.to_nat L) input D).

(** [BuildLut(std::index_sequence<i...>)]: [{{SplitByN(i)...}}]. *)
Definition BuildLut (i : list Z) : list Z := map SplitByN i.

(** [pow(base, exp)], by recursion on [exp], in [std::size_t]. *)
Fixpoint pow (base : Z) (exp : nat) : Z :=
  match exp with
  | O => 1
  | S e => to_size_t (base * pow base e)
  end.

Definition ComputeLutSize : Z := pow 2 (Z.to_nat L).
Definition LutSize : Z := ComputeLutSize.

Definition ChunkMask : Z :=
  Z.shiftr (to_size_t (Z.lnot (to_size_t 0))) (to_size_t (size_t_digits - L)).

(** The defaulted constructor: the default member initialiser of
    [LookupTable], once the class's [static_assert]s let the class be
    instantiated. *)
Definition construct : option t :=
  if static_asserts
  then Some (mk (BuildLut (make_index_sequence LutSize)))
  else None.

Variable this : t.

(** [LookupTable[i]]; the index is always inside the array (lemma
    [ChunkMask_index] below), the default is never read. *)
Definition at_ (i : Z) : Z := nth (Z.to_nat i) (LookupTable this) 0.

(** The two overloads [LookupField(T field, std::size_t, Args... args)]
    and [LookupField(T field, std::size_t)], by recursion on the pack
    of chunk indices (whose values are not used).  The index converts to
    [std::size_t], by the cast in the first overload and by the parameter
    type of [operator[]] in the second.  No overload takes an empty pack;
    [ChunkCount] is never 0. *)
Fixpoint LookupField (field : Z) (I : list Z) : Z :=
  match I with
  | [] => 0
  | _ :: args =>
      match args with
      | [] => to_T (at_ (to_size_t (Z.land field ChunkMask)))
      | _ :: _ =>
          to_T (Z.lor
                  (Z.shiftl (LookupField (Z.shiftr field L) args) (to_size_t (D * L)))
                  (to_T (at_ (to_size_t (Z.land field ChunkMask)))))
      end
  end.

(** The same recursion, recording the table indices it reads. *)
Fixpoint LookupField_traced (field : Z) (I : list Z) : Z * list Z :=
  match I with
  | [] => (0, [])
  | _ :: args =>
      match args with
      | [] => (to_T (at_ (to_size_t (Z.land field ChunkMask))),
               [to_size_t (Z.land field ChunkMask)])
      | _ :: _ =>
          let (hi, reads) := LookupField_traced (Z.shiftr field L) args in
          (to_T (Z.lor (Z.shiftl hi (to_size_t (D * L)))
                       (to_T (at_ (to_size_t (Z.land field ChunkMask))))),
           to_size_t (Z.land field ChunkMask) :: reads)
      end
  end.

(** The two overloads of [EncodeInternal], by recursion on the pack of
    remaining fields. *)
Fixpoint EncodeInternal (field1 : Z) (fields : list Z) : Z :=
  match fields with
  | [] => LookupField field1 (make_index_sequence ChunkCount)
  | f :: rest =>
      to_T (Z.lor (Z.shiftl (EncodeInternal f rest) 1)
                  (LookupField field1 (make_index_sequence ChunkCount)))
  end.

(** [Encode(T field0, Args... fields)]; the [static_assert] on the
    arity makes any other call ill-formed.  The body applies [<<], [>>],
    [&] and [|] to values of [T]: for a [T] that is not integral the call
    has no value here (with [double] these operators do not exist and the
    call is ill-formed; the operators of a user's class are not in the
    source). *)
Definition Encode (field0 : Z) (fields : list Z) : option Z :=
  if is_integral Ty && (Z.of_nat (length fields) =? to_size_t (D - 1))
  then Some (EncodeInternal field0 fields)
  else None.

End Class.

(** The public member functions as calls on an object.  [LookupTable] is a
    [const] member and both functions are [const]: a call hands back its
    result and the object it was made on. *)
Inductive call : Set :=
| Call_Encode (field0 : Z) (fields : list Z)
| Call_InputMask.

Definition invoke (c : Config) (this : t) (k : call) : t * option Z :=
  match k with
  | Call_Encode field0 fields => (this, Encode c this field0 fields)
  | Call_InputMask => (this, InputMask c)
  end.

(** A sequence of calls on one object, each on the object the previous call
    left. *)
Fixpoint run (c : Config) (this : t) (ks : list call) : t * list (option Z) :=
  match ks with
  | [] => (this, [])
  | k :: rest =>
      let (this', r) := invoke c this k in
      let (this'', rs) := run c this' rest in
      (this'', r :: rs)
  end.

End MortonNDLutEncoder.

(** The preset configurations. *)
Definition MortonNDLutEncoder_2D_32 : Config := mkConfig 2 16 8 (FastInt (2 * 16)).
Definition MortonNDLutEncoder_2D_64 : Config := mkConfig 2 32 11 (FastInt (2 * 32)).
Definition MortonNDLutEncoder_3D_32 : Config := mkConfig 3 10 10 (FastInt (3 * 10)).
Definition MortonNDLutEncoder_3D_64 : Config := mkConfig 3 21 11 (FastInt (3 * 21)).

End mortonnd.

Import mortonnd.
Import mortonnd.MortonNDLutEncoder.

(** ** The prototype: the class [MortonCode] of [mortoncode.h]

    [MortonCode<Fields, Chunks, Bits, InputType, OutputType>], the earlier
    encoder that [main.cpp] uses.  Its types are taken to be unsigned
    integer types; values of [InputType] and [OutputType] are integers
    below [2 ^ digits]. *)

Module MortonCode.

Record Params : Set := mkParams {
  Fields : Z;
  Chunks : Z;
  Bits : Z;
  InputType : CType;
  OutputType : CType
}.

(** The default of [InputType]: the first of [uint8_t], [uint16_t],
    [uint32_t], [uint64_t] with at least [Bits] digits; none ([void()])
    beyond 64. *)
Definition default_InputType (Bits : Z) : option CType :=
  if Bits <=? 8 then Some uint8_t
  else if Bits <=? 16 then Some uint16_t
  else if Bits <=? 32 then Some uint32_t
  else if Bits <=? 64 then Some uint64_t
  else None.

(** An argument of [LookupField] after the field: [EncodeInternal] passes
    one object, [std::make_index_sequence<Chunks>{}]. *)
Inductive arg : Set := index_sequence (I : list Z).

(** The object: its two data members. *)
Record t : Set := mk { LookupTable : list Z; ChunkMask : Z }.

Section Class.

Variable c : Params.

Definition to_In (x : Z) : Z := to_unsigned (digits (InputType c)) x.
Definition to_Out (x : Z) : Z := to_unsigned (digits (OutputType c)) x.

(** The value of an expression whose operands have type [InputType]: in
    [int] after promotion (written exactly), in [InputType] otherwise. *)
Definition promoted_In (x : Z) : Z :=
  if promotes_to_int (InputType c) then x else to_In x.

(** Where the shifts of [Split1ByN] are defined: a promoted operand is an
    [int] below [2 ^ digits] and its shift by [Fields] has to stay below
    [2 ^ 32]; an unpromoted one is shifted in [InputType], by less than its
    width. *)
Definition shift_defined : bool :=
  if promotes_to_int (InputType c)
  then digits (InputType c) + Fields c <=? int_digits + 1
  else Fields c <? digits (InputType c).

(** [Split1ByN(input, bitsRemaining)]:
    [(bitsRemaining == 0) ? input
     : (Split1ByN(input >> 1, bitsRemaining - 1) << Fields) | (input & 1)],
    converted to [InputType] on return. *)
Fixpoint Split1ByN (input : Z) (bitsRemaining : nat) : Z :=
  match bitsRemaining with
  | O => input
  | S n =>
      to_In (Z.lor (Z.shiftl (Split1ByN (Z.shiftr input 1) n) (Fields c))
                   (Z.land input 1))
  end.

(** [BuildLut]: [{{Split1ByN(i)...}}]; each index converts to [InputType]
    and [bitsRemaining] takes its default, [Bits]. *)
Definition BuildLut (i : list Z) : list Z :=
  map (fun i => Split1ByN (to_In i) (Z.to_nat (Bits c))) i.

(** [LutSize()]: [pow(2, Bits)], the same [pow] as in the encoder above. *)
Definition LutSize : Z := pow 2 (Z.to_nat (Bits c)).

(** The constructor: [LookupTable(BuildLut(...))] and the default member
    initialiser [ChunkMask = (1 << Bits) - 1], computed in [int] (defined up
    to [Bits = 30]) and converted to [InputType].  [Split1ByN] carries
    [static_assert(Fields > 0)]. *)
Definition construct : option t :=
  if 0 <? Fields c
  then Some (mk (BuildLut (make_index_sequence LutSize))
                (to_In (Z.shiftl 1 (Bits c) - 1)))
  else None.

Variable this : t.

Definition at_ (i : Z) : Z := nth (Z.to_nat i) (LookupTable this) 0.

(** The two overloads of [LookupField].  Both are templates over the type
    of the argument after the field; with exactly one such argument both
    are viable and the one without a parameter pack is more specialised,
    so it is the one called. *)
Fixpoint LookupField (field : Z) (args : list arg) : Z :=
  match args with
  | [] => 0
  | _ :: rest =>
      match rest with
      | [] => at_ (to_size_t (Z.land field (ChunkMask this)))
      | _ :: _ =>
          promoted_In
            (Z.lor (Z.shiftl (LookupField (Z.shiftr field (Bits c)) rest)
                             (to_size_t (Fields c * Bits c)))
                   (at_ (to_size_t (Z.land field (ChunkMask this)))))
      end
  end.

(** The two overloads of [EncodeInternal]; each returns [OutputType]. *)
Fixpoint EncodeInternal (field1 : Z) (fields : list Z) : Z :=
  match fields with
  | [] => to_Out (LookupField field1 [index_sequence (make_index_sequence (Chunks c))])
  | f :: rest =>
      to_Out (Z.lor (Z.shiftl (EncodeInternal f rest) 1)
                    (LookupField field1
                       [index_sequence (make_index_sequence (Chunks c))]))
  end.

(** [Encode]: enabled only for [Fields] arguments. *)
Definition Encode (field1 : Z) (fields : list Z) : option Z :=
  if Z.of_nat (length fields) =? to_size_t (Fields c - 1)
  then Some (EncodeInternal field1 fields)
  else None.

(** [Decode]: the body is empty; nothing is returned. *)
Definition Decode (value : Z) : unit := tt.

End Class.

(** The same instantiation with another [Chunks]. *)
Definition with_Chunks (c : Params) (k : Z) : Params :=
  mkParams (Fields c) k (Bits c) (InputType c) (OutputType c).

(** The encoder above that a prototype corresponds to: one chunk of [Bits]
    bits per field, results in [OutputType]. *)
Definition as_encoder (c : Params) : Config :=
  mkConfig (Fields c) (Bits c) (Bits c) (OutputType c).

End MortonCode.

(** ** The specification's vocabulary *)

Module Spec.

(** [x] uses no more than its [n] least-significant bits. *)
Definition fits (n x : Z) : Prop := 0 <= x < 2 ^ n.

Definition size_t_value (x : Z) : bool := (0 <=? x) && (x <? 2 ^ 64).

(** A valid configuration, as the data model states it: products are
    products of integers, [ValueType] is an unsigned integral type. *)
Definition valid_config (c : Config) : bool :=
  size_t_value (Dimensions c) && size_t_value (FieldBits c) && size_t_value (LutBits c)
  && (0 <? Dimensions c) && (0 <? FieldBits c) && (0 <? LutBits c)
  && (LutBits c <=? FieldBits c) && (LutBits c <=? 32)
  && (Dimensions c * LutBits c <=? 64)
  && is_integral (T c) && is_unsigned (T c)
  && (Dimensions c * FieldBits c <=? digits (T c))
  && size_t_constructible (T c).

(** The spread form of [x] with stride [s]: reading [r] from the LSB
    upward in groups of [s] bits, bit 0 of group [j] is bit [j] of [x] and
    every other bit of the group is 0. *)
Definition spread_form (r x s : Z) : Prop :=
  forall j i, 0 <= j -> 0 <= i < s ->
    Z.testbit r (j * s + i) = (i =? 0) && Z.testbit x j.

(** The bit-by-bit interleave of the result contract: bit [k + D * b] of
    [r] is bit [b] of field [k], and nothing is set from [D * F] upward. *)
Definition interleaved (D F : Z) (fields : list Z) (r : Z) : Prop :=
  (forall k b, 0 <= k < D -> 0 <= b < F ->
     Z.testbit r (k + D * b) = Z.testbit (nth (Z.to_nat k) fields 0) b)
  /\ (forall p, D * F <= p -> Z.testbit r p = false).

(** The slow reference interleaver: a loop over the bits of a field
    inside a loop over the fields, setting one result bit at a time. *)
Fixpoint interleave_bits (D k field : Z) (nbits : nat) : Z :=
  match nbits with
  | O => 0
  | S b =>
      Z.lor (interleave_bits D k field b)
            (Z.shiftl (Z.b2z (Z.testbit field (Z.of_nat b))) (k + D * Z.of_nat b))
  end.

Fixpoint interleave_from (D F k : Z) (fields : list Z) : Z :=
  match fields with
  | [] => 0
  | f :: rest =>
      Z.lor (interleave_bits D k f (Z.to_nat F)) (interleave_from D F (k + 1) rest)
  end.

Definition naive_interleave (D F : Z) (fields : list Z) : Z :=
  interleave_from D F 0 fields.

(** The rejection conditions as the specification lists them. *)
Definition invalid_as_listed (c : Config) : bool :=
  (Dimensions c =? 0) || (FieldBits c =? 0) || (LutBits c =? 0)
  || (FieldBits c <? LutBits c) || (32 <? LutBits c)
  || (64 <? Dimensions c * LutBits c)
  || (size_t_digits <? Dimensions c * LutBits c)
  || is_signed (T c)
  || (digits (T c) <? Dimensions c * FieldBits c)
  || negb (size_t_constructible (T c)).

(** The same conditions with the two on [ValueType]'s signedness and
    width applying to integral types only. *)
Definition invalid_as_checked (c : Config) : bool :=
  (Dimensions c =? 0) || (FieldBits c =? 0) || (LutBits c =? 0)
  || (FieldBits c <? LutBits c) || (32 <? LutBits c)
  || (64 <? Dimensions c * LutBits c)
  || (size_t_digits <? Dimensions c * LutBits c)
  || (is_integral (T c) && negb (is_unsigned (T c)))
  || (is_integral (T c) && (digits (T c) <? Dimensions c * FieldBits c))
  || negb (size_t_constructible (T c)).

(** [ceil(a / b)] for a positive [b], over the rationals. *)
Definition ceil_div (a b : Z) : Z := Qceiling (a # Z.to_pos b).

End Spec.

Import Spec.

(** ** Auxiliary definitions of the development *)

(** What a valid configuration gives, as arithmetic facts. *)
Record config_facts (c : Config) : Prop := {
  cf_D : 1 <= Dimensions c <= 64;
  cf_F : 1 <= FieldBits c < 2 ^ 64;
  cf_L : 1 <= LutBits c <= 32;
  cf_LF : LutBits c <= FieldBits c;
  cf_DL : Dimensions c * LutBits c <= 64;
  cf_DF : Dimensions c * FieldBits c <= digits (T c);
  cf_int : is_integral (T c) = true;
  cf_uns : is_unsigned (T c) = true;
  cf_con : size_t_constructible (T c) = true
}.

(** The state of the table right after construction. *)
Definition table_built (c : Config) (this : t) : Prop :=
  LookupTable this = BuildLut c (make_index_sequence (LutSize c)).

(** Bit [p] of a spread field: [p] starts a group of [D] bits, the group's
    number is below [limit], and the field has that bit. *)
Definition field_bit (D limit field p : Z) : bool :=
  (p mod D =? 0) && (p / D <? limit) && Z.testbit field (p / D).

(** Sample encoders. *)

(** The encoder the constructor builds for [c] when it accepts [c]. *)
Definition built (c : Config) : t := mk (BuildLut c (make_index_sequence (LutSize c))).

Definition cfg_2_8_4 (ty : CType) : Config := mkConfig 2 8 4 ty.
Definition cfg_2_16 (lut : Z) : Config := mkConfig 2 16 lut uint32_t.
Definition cfg_3_10_4 : Config := mkConfig 3 10 4 uint32_t.

(** [EncodeInternal] together with the table indices its [LookupField]
    calls read (the order of the two operands of [|] is not fixed by the
    language; only the collection of reads is meant). *)
Fixpoint EncodeInternal_traced (c : Config) (this : t) (field1 : Z) (fields : list Z)
  : Z * list Z :=
  match fields with
  | [] => LookupField_traced c this field1 (make_index_sequence (ChunkCount c))
  | f :: rest =>
      let (hi, reads_hi) := EncodeInternal_traced c this f rest in
      let (lo, reads_lo) :=
        LookupField_traced c this field1 (make_index_sequence (ChunkCount c)) in
      (to_T c (Z.lor (Z.shiftl hi 1) lo), reads_hi ++ reads_lo)
  end.

(** Two tuples combined field by field. *)
Definition zip_with (op : Z -> Z -> Z) (fs gs : list Z) : list Z :=
  map (fun fg => op (fst fg) (snd fg)) (combine fs gs).

(** ** Bit-level facts about the conversions *)

Lemma to_unsigned_testbit w x p :
  0 <= w -> 0 <= p ->
  Z.testbit (to_unsigned w x) p = (p <? w) && Z.testbit x p.
Proof.
  intros Hw Hp. unfold to_unsigned.
  destruct (Z.ltb_spec p w).
  - now rewrite Z.mod_pow2_bits_low by lia.
  - now rewrite Z.mod_pow2_bits_high by lia.
Qed.

Lemma to_unsigned_range w x : 0 <= w -> 0 <= to_unsigned w x < 2 ^ w.
Proof. intros. unfold to_unsigned. apply Z.mod_pos_bound. lia. Qed.

Lemma to_unsigned_small w x : 0 <= x < 2 ^ w -> to_unsigned w x = x.
Proof. intros. unfold to_unsigned. now apply Z.mod_small. Qed.

Lemma to_size_t_small x : 0 <= x < 2 ^ 64 -> to_size_t x = x.
Proof. intros. now apply to_unsigned_small. Qed.

Lemma to_size_t_testbit x p :
  0 <= p -> Z.testbit (to_size_t x) p = (p <? 64) && Z.testbit x p.
Proof. intros. unfold to_size_t. now rewrite to_unsigned_testbit. Qed.

Lemma testbit_1 p : 0 <= p -> Z.testbit 1 p = (p =? 0).
Proof.
  intros Hp. change 1 with (Z.ones 1).
  destruct (Z.eqb_spec p 0) as [->|]; [reflexivity|].
  apply Z.ones_spec_high. lia.
Qed.

(** A non-negative integer whose bits from [k] upward are clear is below [2^k]. *)
Lemma bits_above_bound a k :
  0 <= k -> 0 <= a ->
  (forall p, k <= p -> Z.testbit a p = false) ->
  a < 2 ^ k.
Proof.
  intros Hk Ha Hbits.
  assert (E : a mod 2 ^ k = a).
  { apply Z.bits_inj'. intros p Hp.
    destruct (Z.ltb_spec p k).
    - now rewrite Z.mod_pow2_bits_low.
    - rewrite Z.mod_pow2_bits_high by lia. symmetry. now apply Hbits. }
  rewrite <- E. apply Z.mod_pos_bound. lia.
Qed.

Lemma testbit_above a k p :
  0 <= a < 2 ^ k -> 0 <= k <= p -> Z.testbit a p = false.
Proof.
  intros Ha Hk. rewrite <- (Z.mod_small a (2 ^ k)) by lia.
  apply Z.mod_pow2_bits_high. lia.
Qed.

(** ** The bit spreader *)

Lemma SplitByN_step n x s :
  mortonnd.SplitByN (S (S n)) x s =
  Z.lor (to_size_t (Z.shiftl (mortonnd.SplitByN (S n) (Z.shiftr x 1) s) s)) (Z.land x 1).
Proof. reflexivity. Qed.

Lemma SplitByN_nonneg n x s : 0 <= mortonnd.SplitByN n x s.
Proof.
  destruct n as [|n]; [simpl; lia|].
  destruct n as [|n].
  - simpl. apply Z.land_nonneg. lia.
  - rewrite SplitByN_step. apply Z.lor_nonneg. split.
    + apply to_unsigned_range. unfold size_t_digits. lia.
    + apply Z.land_nonneg. lia.
Qed.

(** The example of the source's comment: 7 = 111b spreads to 1001001b = 73. *)
Lemma SplitByN_example : mortonnd.SplitByN 3 7 3 = 73.
Proof. reflexivity. Qed.

(** Arithmetic of positions: position [p] is the start of group [p / s]. *)
Lemma group_shift s p :
  1 <= s -> s <= p ->
  (p - s) mod s = p mod s /\ (p - s) / s = p / s - 1.
Proof.
  intros Hs Hp.
  replace (p - s) with (p + (-1) * s) by lia.
  rewrite Z.mod_add, Z.div_add by lia. lia.
Qed.

Lemma group_zero s p :
  1 <= s -> 0 <= p -> ((p mod s =? 0) && (p / s <? 1)) = (p =? 0).
Proof.
  intros Hs Hp.
  pose proof (Z.div_mod p s ltac:(lia)) as E.
  pose proof (Z.mod_pos_bound p s ltac:(lia)) as B.
  pose proof (Z.div_pos p s Hp ltac:(lia)) as Q.
  destruct (Z.eqb_spec (p mod s) 0), (Z.ltb_spec (p / s) 1), (Z.eqb_spec p 0);
    simpl; try reflexivity; nia.
Qed.

(** The spread value, bit by bit: bit [p] is set exactly when [p] starts a
    group of [s] bits, the group is one of the first [n], and the bit of
    [x] with the group's number is set. *)
Lemma SplitByN_testbit n x s p :
  (1 <= n)%nat -> 1 <= s -> (Z.of_nat n - 1) * s < 64 -> 0 <= p ->
  Z.testbit (mortonnd.SplitByN n x s) p =
  (p mod s =? 0) && (p / s <? Z.of_nat n) && Z.testbit x (p / s).
Proof.
  intros Hn Hs. revert x p.
  induction n as [|n IH]; [lia|]. clear Hn.
  intros x p Hfit Hp.
  destruct n as [|n].
  - simpl mortonnd.SplitByN. rewrite Z.land_spec, testbit_1 by assumption.
    change (Z.of_nat 1) with 1. rewrite group_zero by assumption.
    destruct (Z.eqb_spec p 0) as [->|].
    + rewrite Z.div_0_l by lia. now rewrite andb_true_r.
    + now rewrite andb_false_r.
  - rewrite SplitByN_step, Z.lor_spec, to_size_t_testbit, Z.land_spec, testbit_1
      by assumption.
    pose proof (Z.div_mod p s ltac:(lia)) as E.
    pose proof (Z.mod_pos_bound p s ltac:(lia)) as B.
    pose proof (Z.div_pos p s Hp ltac:(lia)) as Q.
    destruct (Z.ltb_spec p s) as [Hlt|Hge].
    + rewrite Z.shiftl_spec_low by assumption.
      rewrite andb_false_r, orb_false_l.
      rewrite Z.div_small by lia.
      destruct (Z.eqb_spec p 0) as [->|Hne].
      * rewrite Z.mod_0_l by lia. simpl. now rewrite andb_true_r.
      * rewrite Z.mod_small by lia.
        destruct (Z.eqb_spec p 0); [lia|]. now rewrite andb_false_r.
    + rewrite Z.shiftl_spec by assumption.
      rewrite IH by lia.
      destruct (group_shift s p Hs Hge) as [-> ->].
      rewrite Z.shiftr_spec by lia.
      replace (p / s - 1 + 1) with (p / s) by lia.
      destruct (Z.eqb_spec p 0); [lia|]. rewrite andb_false_r, orb_false_r.
      destruct (Z.eqb_spec (p mod s) 0) as [Hm|]; [|now rewrite !andb_false_r].
      destruct (Z.ltb_spec (p / s - 1) (Z.of_nat (S n))),
               (Z.ltb_spec (p / s) (Z.of_nat (S (S n))));
        try lia; simpl.
      destruct (Z.ltb_spec p 64); [reflexivity|nia].
Qed.

Lemma SplitByN_bound n x s :
  (1 <= n)%nat -> 1 <= s -> (Z.of_nat n - 1) * s < 64 ->
  mortonnd.SplitByN n x s < 2 ^ ((Z.of_nat n - 1) * s + 1).
Proof.
  intros Hn Hs Hfit.
  apply bits_above_bound; [nia | apply SplitByN_nonneg |].
  intros p Hp.
  rewrite SplitByN_testbit by (assumption || nia).
  pose proof (Z.div_mod p s ltac:(lia)) as E.
  destruct (Z.eqb_spec (p mod s) 0); [|reflexivity].
  destruct (Z.ltb_spec (p / s) (Z.of_nat n)); [|reflexivity].
  nia.
Qed.

(** Only the low [n] bits of the input matter. *)
Lemma SplitByN_low_bits n x s :
  (1 <= n)%nat -> 1 <= s -> (Z.of_nat n - 1) * s < 64 ->
  mortonnd.SplitByN n (Z.land x (Z.ones (Z.of_nat n))) s = mortonnd.SplitByN n x s.
Proof.
  intros Hn Hs Hfit. apply Z.bits_inj'. intros p Hp.
  rewrite !SplitByN_testbit by assumption.
  destruct (Z.ltb_spec (p / s) (Z.of_nat n)); [|now rewrite !andb_false_r].
  rewrite Z.land_spec.
  rewrite Z.ones_spec_low; [now rewrite !andb_true_r|].
  split; [apply Z.div_pos; lia | lia].
Qed.

(** ** Configurations *)

Lemma valid_config_facts c : valid_config c = true -> config_facts c.
Proof.
  unfold valid_config, size_t_value. intros H.
  repeat (apply andb_prop in H; destruct H as [H ?]).
  repeat match goal with
         | X : (_ <=? _) = true |- _ => apply Z.leb_le in X
         | X : (_ <? _) = true |- _ => apply Z.ltb_lt in X
         end.
  split; try assumption; try lia; nia.
Qed.

Lemma LutValueWidth_exact c :
  config_facts c -> LutValueWidth c = LutBits c * Dimensions c.
Proof.
  intros []. unfold LutValueWidth. apply to_size_t_small. nia.
Qed.

Lemma valid_static_asserts c : valid_config c = true -> static_asserts c = true.
Proof.
  intros H. pose proof (valid_config_facts c H) as Hf.
  unfold static_asserts. rewrite (LutValueWidth_exact c Hf).
  destruct Hf. unfold size_t_digits.
  rewrite cf_int0, cf_uns0, cf_con0. simpl.
  assert (Hdf : to_size_t (Dimensions c * FieldBits c) <= digits (T c)).
  { unfold to_size_t, to_unsigned.
    pose proof (Z.mod_le (Dimensions c * FieldBits c) (2 ^ size_t_digits)
                  ltac:(nia) ltac:(unfold size_t_digits; lia)). lia. }
  repeat (apply andb_true_intro; split);
    first [apply Z.ltb_lt | apply Z.leb_le | reflexivity]; lia.
Qed.

(** X7. Every valid configuration is accepted: the constructor returns the
    encoder whose table is [BuildLut] over the indices below [LutSize]. *)
Theorem construct_valid c :
  valid_config c = true ->
  construct c = Some (built c).
Proof.
  intros H. unfold construct, built. now rewrite valid_static_asserts.
Qed.

Lemma construct_valid_witness :
  construct MortonNDLutEncoder_2D_32 = Some (built MortonNDLutEncoder_2D_32).
Proof. apply (construct_valid MortonNDLutEncoder_2D_32). reflexivity. Defined.

(** ** The lookup table *)

Lemma pow_2 n : (n <= 63)%nat -> pow 2 n = 2 ^ Z.of_nat n.
Proof.
  induction n as [|n IH]; intros Hn; [reflexivity|].
  cbn [pow]. rewrite IH by lia.
  rewrite Nat2Z.inj_succ, Z.pow_succ_r by lia.
  apply to_size_t_small.
  assert (2 ^ Z.of_nat n <= 2 ^ 62) by (apply Z.pow_le_mono_r; lia).
  lia.
Qed.

Lemma LutSize_exact c : config_facts c -> LutSize c = 2 ^ LutBits c.
Proof.
  intros []. unfold LutSize, ComputeLutSize.
  rewrite pow_2 by lia. now rewrite Z2Nat.id by lia.
Qed.

Lemma ChunkMask_exact c : config_facts c -> ChunkMask c = Z.ones (LutBits c).
Proof.
  intros []. unfold ChunkMask, size_t_digits.
  rewrite (to_size_t_small 0) by lia.
  rewrite (to_size_t_small (64 - LutBits c)) by lia.
  apply Z.bits_inj'. intros p Hp.
  rewrite Z.shiftr_spec, to_size_t_testbit by lia.
  rewrite Z.lnot_spec by lia. rewrite Z.bits_0. simpl negb. rewrite andb_true_r.
  destruct (Z.ltb_spec p (LutBits c)).
  - rewrite Z.ones_spec_low by lia. apply Z.ltb_lt. lia.
  - rewrite Z.ones_spec_high by lia. apply Z.ltb_ge. lia.
Qed.

(** Every index the encoder forms lies inside the table. *)
Lemma ChunkMask_index c field :
  config_facts c -> 0 <= Z.land field (ChunkMask c) < LutSize c.
Proof.
  intros Hf. rewrite ChunkMask_exact, LutSize_exact by assumption.
  destruct Hf. rewrite Z.land_ones by lia.
  apply Z.mod_pos_bound. lia.
Qed.

Lemma ChunkMask_index_size_t c field :
  config_facts c -> 0 <= Z.land field (ChunkMask c) < 2 ^ 64.
Proof.
  intros Hf. pose proof (ChunkMask_index c field Hf) as Hi.
  rewrite LutSize_exact in Hi by assumption. destruct Hf.
  assert (2 ^ LutBits c <= 2 ^ 32) by (apply Z.pow_le_mono_r; lia).
  lia.
Qed.

Lemma make_index_sequence_length N :
  length (make_index_sequence N) = Z.to_nat N.
Proof. unfold make_index_sequence. now rewrite length_map, length_seq. Qed.

Lemma make_index_sequence_nth N i :
  0 <= i < N -> nth (Z.to_nat i) (make_index_sequence N) 0 = i.
Proof.
  intros Hi. unfold make_index_sequence.
  change (nth (Z.to_nat i) (map Z.of_nat (seq 0 (Z.to_nat N))) (Z.of_nat 0) = i).
  rewrite map_nth, seq_nth by lia. lia.
Qed.

Lemma MinInt_digits Bits : Bits <= 64 -> Bits <= digits (MinInt Bits) <= 64.
Proof.
  intros H. unfold MinInt.
  destruct (Z.leb_spec Bits 8); [simpl; lia|].
  destruct (Z.leb_spec Bits 16); [simpl; lia|].
  destruct (Z.leb_spec Bits 32); simpl; lia.
Qed.

Lemma SplitByN_LutBits_bound c i :
  config_facts c ->
  0 <= mortonnd.SplitByN (Z.to_nat (LutBits c)) i (Dimensions c)
    < 2 ^ ((LutBits c - 1) * Dimensions c + 1).
Proof.
  intros []. split; [apply SplitByN_nonneg|].
  replace (LutBits c) with (Z.of_nat (Z.to_nat (LutBits c))) at 2 by lia.
  apply SplitByN_bound; [lia | lia | nia].
Qed.

(** Storing a spread value in a table slot of type [LutValue] keeps it whole. *)
Lemma SplitByN_LutValue_exact c i :
  config_facts c ->
  SplitByN c i = mortonnd.SplitByN (Z.to_nat (LutBits c)) i (Dimensions c).
Proof.
  intros Hf. unfold SplitByN. apply to_unsigned_small.
  pose proof (SplitByN_LutBits_bound c i Hf) as B.
  unfold LutValue. rewrite (LutValueWidth_exact c Hf).
  destruct Hf.
  pose proof (MinInt_digits (LutBits c * Dimensions c) ltac:(lia)) as M.
  split; [lia|].
  eapply Z.lt_le_trans; [apply B|].
  apply Z.pow_le_mono_r; nia.
Qed.

Lemma construct_table c this : construct c = Some this -> table_built c this.
Proof.
  unfold construct, table_built. destruct (static_asserts c); [|discriminate].
  intros E. now inversion E.
Qed.

Lemma table_at c this i :
  config_facts c -> table_built c this -> 0 <= i < 2 ^ LutBits c ->
  at_ this i = mortonnd.SplitByN (Z.to_nat (LutBits c)) i (Dimensions c).
Proof.
  intros Hf Ht Hi. unfold at_. rewrite Ht. unfold BuildLut.
  rewrite (nth_indep _ 0 (SplitByN c 0))
    by (rewrite length_map, make_index_sequence_length, LutSize_exact by assumption;
        lia).
  rewrite map_nth, make_index_sequence_nth by (rewrite LutSize_exact; assumption).
  now apply SplitByN_LutValue_exact.
Qed.

(** ** One field: the chunked lookups *)

Lemma table_entry_testbit c this field p :
  config_facts c -> table_built c this -> 0 <= p ->
  Z.testbit (at_ this (Z.land field (ChunkMask c))) p =
  field_bit (Dimensions c) (LutBits c) field p.
Proof.
  intros Hf Ht Hp.
  pose proof (ChunkMask_index c field Hf) as Hi.
  rewrite LutSize_exact in Hi by assumption.
  rewrite (table_at c) by assumption.
  rewrite ChunkMask_exact by assumption.
  destruct Hf.
  replace (LutBits c) with (Z.of_nat (Z.to_nat (LutBits c))) at 2 by lia.
  rewrite SplitByN_low_bits by (lia || nia).
  rewrite SplitByN_testbit by (lia || nia).
  unfold field_bit. now rewrite Z2Nat.id by lia.
Qed.

Lemma div_ge_iff D L p : 1 <= D -> D * L <= p <-> L <= p / D.
Proof.
  intros HD. split; intros H.
  - apply Z.div_le_lower_bound; lia.
  - pose proof (Z.mul_div_le p D ltac:(lia)). nia.
Qed.

Lemma pack_shift D L p :
  1 <= D -> (p - D * L) mod D = p mod D /\ (p - D * L) / D = p / D - L.
Proof.
  intros HD. replace (p - D * L) with (p + (- L) * D) by lia.
  rewrite Z.mod_add, Z.div_add by lia. lia.
Qed.

Lemma LookupField_testbit c this I field p :
  config_facts c -> table_built c this -> I <> [] -> 0 <= p ->
  Z.testbit (LookupField c this field I) p =
  (p <? digits (T c))
  && field_bit (Dimensions c) (Z.of_nat (length I) * LutBits c) field p.
Proof.
  intros Hf Ht. revert field p.
  induction I as [|i0 args IH]; [congruence|].
  intros field p _ Hp.
  pose proof Hf as [].
  assert (Hw : 0 <= digits (T c)) by nia.
  destruct args as [|i1 args].
  - cbn [LookupField]. unfold to_T.
    rewrite (to_size_t_small (Z.land field (ChunkMask c)))
      by (apply ChunkMask_index_size_t; assumption).
    rewrite to_unsigned_testbit, table_entry_testbit by assumption.
    change (Z.of_nat (length [i0])) with 1. now rewrite Z.mul_1_l.
  - change (LookupField c this field (i0 :: i1 :: args)) with
      (to_T c (Z.lor
         (Z.shiftl (LookupField c this (Z.shiftr field (LutBits c)) (i1 :: args))
                   (to_size_t (Dimensions c * LutBits c)))
         (to_T c (at_ this (to_size_t (Z.land field (ChunkMask c))))))).
    rewrite (to_size_t_small (Dimensions c * LutBits c)) by nia.
    rewrite (to_size_t_small (Z.land field (ChunkMask c)))
      by (apply ChunkMask_index_size_t; assumption).
    unfold to_T.
    rewrite !to_unsigned_testbit, Z.lor_spec, to_unsigned_testbit by assumption.
    rewrite table_entry_testbit by assumption.
    destruct (Z.ltb_spec p (digits (T c))) as [Hpw|]; [|reflexivity].
    cbn [andb].
    set (n := Z.of_nat (length (i1 :: args))).
    replace (Z.of_nat (length (i0 :: i1 :: args))) with (n + 1)
      by (unfold n; cbn [length]; lia).
    assert (Hn : 1 <= n) by (unfold n; cbn [length]; lia).
    unfold field_bit.
    pose proof (Z.div_pos p (Dimensions c) Hp ltac:(lia)) as Q.
    destruct (Z.ltb_spec p (Dimensions c * LutBits c)) as [Hlo|Hhi].
    + rewrite Z.shiftl_spec_low by assumption. cbn [orb].
      assert (p / Dimensions c < LutBits c).
      { apply Z.div_lt_upper_bound; lia. }
      destruct (Z.ltb_spec (p / Dimensions c) (LutBits c)); [|lia].
      destruct (Z.ltb_spec (p / Dimensions c) ((n + 1) * LutBits c)); [|nia].
      reflexivity.
    + rewrite Z.shiftl_spec by assumption.
      rewrite IH by (discriminate || lia).
      destruct (pack_shift (Dimensions c) (LutBits c) p ltac:(lia)) as [Em Ed].
      unfold field_bit. rewrite Em, Ed. fold n.
      rewrite Z.shiftr_spec by (apply div_ge_iff in Hhi; lia).
      replace (p / Dimensions c - LutBits c + LutBits c) with (p / Dimensions c) by lia.
      apply div_ge_iff in Hhi; [|lia].
      destruct (Z.ltb_spec (p - Dimensions c * LutBits c) (digits (T c))); [|lia].
      destruct (Z.ltb_spec (p / Dimensions c) (LutBits c)); [lia|].
      rewrite andb_false_r, orb_false_r. cbn [andb].
      destruct (Z.ltb_spec (p / Dimensions c - LutBits c) (n * LutBits c)),
               (Z.ltb_spec (p / Dimensions c) ((n + 1) * LutBits c));
        (reflexivity || lia).
Qed.

(** ** The number of chunks *)

Lemma ChunkCount_formula c :
  0 < FieldBits c < 2 ^ 64 -> 0 < LutBits c ->
  ChunkCount c = 1 + (FieldBits c - 1) / LutBits c.
Proof.
  intros HF HL. unfold ChunkCount.
  rewrite (to_size_t_small (FieldBits c - 1)) by lia.
  apply to_size_t_small.
  pose proof (Z.div_pos (FieldBits c - 1) (LutBits c) ltac:(lia) HL).
  pose proof (Z.div_le_upper_bound (FieldBits c - 1) (LutBits c) (FieldBits c - 1)
                HL ltac:(nia)).
  lia.
Qed.

Lemma ChunkCount_covers c :
  0 < FieldBits c < 2 ^ 64 -> 0 < LutBits c ->
  (ChunkCount c - 1) * LutBits c < FieldBits c <= ChunkCount c * LutBits c.
Proof.
  intros HF HL. rewrite ChunkCount_formula by assumption.
  pose proof (Z.div_mod (FieldBits c - 1) (LutBits c) ltac:(lia)).
  pose proof (Z.mod_pos_bound (FieldBits c - 1) (LutBits c) HL).
  nia.
Qed.

Lemma ChunkCount_pack c :
  config_facts c ->
  make_index_sequence (ChunkCount c) <> []
  /\ Z.of_nat (length (make_index_sequence (ChunkCount c))) = ChunkCount c.
Proof.
  intros [].
  pose proof (ChunkCount_covers c ltac:(lia) ltac:(lia)) as Hc.
  assert (1 <= ChunkCount c) by nia.
  rewrite make_index_sequence_length. split; [|lia].
  intros E. apply (f_equal (@length Z)) in E.
  rewrite make_index_sequence_length in E. simpl in E. lia.
Qed.

(** ** All fields: the shifted combination *)

Lemma pred_mod D p :
  1 <= D -> 1 <= p ->
  (p mod D = 0 /\ (p - 1) mod D = D - 1)
  \/ (p mod D <> 0 /\ (p - 1) mod D = p mod D - 1 /\ (p - 1) / D = p / D).
Proof.
  intros HD Hp.
  pose proof (Z.div_mod p D ltac:(lia)) as E.
  pose proof (Z.mod_pos_bound p D ltac:(lia)) as B.
  destruct (Z.eq_dec (p mod D) 0) as [Hz|Hnz].
  - left. split; [assumption|].
    symmetry. apply (Z.mod_unique (p - 1) D (p / D - 1)); lia.
  - right. split; [assumption|].
    assert (Hm : (p - 1) mod D = p mod D - 1).
    { symmetry. apply (Z.mod_unique (p - 1) D (p / D)); lia. }
    split; [assumption|].
    symmetry. apply (Z.div_unique (p - 1) D (p / D) (p mod D - 1)); lia.
Qed.

(** Bit [p] of the combination of the fields [field1 :: fields], for any
    inputs, clean or dirty: it comes from the field numbered [p mod D], and
    is bit [p / D] of it, as long as the chunks reach that far and [T] is
    wide enough. *)
Lemma EncodeInternal_testbit c this fields field1 p :
  config_facts c -> table_built c this ->
  Z.of_nat (length (field1 :: fields)) <= Dimensions c -> 0 <= p ->
  Z.testbit (EncodeInternal c this field1 fields) p =
  (p <? digits (T c))
  && (p mod Dimensions c <? Z.of_nat (length (field1 :: fields)))
  && (p / Dimensions c <? ChunkCount c * LutBits c)
  && Z.testbit (nth (Z.to_nat (p mod Dimensions c)) (field1 :: fields) 0)
               (p / Dimensions c).
Proof.
  intros Hf Ht. revert field1 p.
  destruct (ChunkCount_pack c Hf) as [Hne Hlen].
  pose proof Hf as [].
  assert (Hw : 0 <= digits (T c)) by nia.
  assert (Hlookup : forall field p, 0 <= p ->
            Z.testbit (LookupField c this field (make_index_sequence (ChunkCount c))) p =
            (p <? digits (T c))
            && field_bit (Dimensions c) (ChunkCount c * LutBits c) field p).
  { intros. rewrite LookupField_testbit by assumption. now rewrite Hlen. }
  induction fields as [|f rest IH]; intros field1 p Hlen' Hp;
    pose proof (Z.mod_pos_bound p (Dimensions c) ltac:(lia)) as B.
  - cbn [EncodeInternal]. rewrite Hlookup by assumption. unfold field_bit.
    change (Z.of_nat (length [field1])) with 1.
    destruct (Z.eqb_spec (p mod Dimensions c) 0) as [E|NE].
    + rewrite E. cbn [Z.to_nat nth Pos.to_nat]. change (0 <? 1) with true.
      cbn [andb]. now rewrite !andb_true_r, !andb_assoc.
    + destruct (Z.ltb_spec (p mod Dimensions c) 1); [lia|].
      now rewrite !andb_false_r.
  - cbn [EncodeInternal]. unfold to_T.
    rewrite to_unsigned_testbit, Z.lor_spec, Hlookup by assumption.
    destruct (Z.ltb_spec p (digits (T c))) as [Hpw|]; [|reflexivity].
    cbn [andb]. unfold field_bit.
    set (n := Z.of_nat (length (f :: rest))) in *.
    replace (Z.of_nat (length (field1 :: f :: rest))) with (n + 1) in *
      by (unfold n; cbn [length]; lia).
    assert (Hn : 1 <= n) by (unfold n; cbn [length]; lia).
    destruct (Z.eq_dec p 0) as [->|Hp0].
    + rewrite Z.shiftl_spec_low by lia.
      rewrite Z.mod_0_l, Z.div_0_l by lia. simpl (0 =? 0).
      destruct (Z.ltb_spec 0 (n + 1)); [|lia]. reflexivity.
    + rewrite Z.shiftl_spec by lia.
      rewrite IH by lia. fold n.
      destruct (Z.ltb_spec (p - 1) (digits (T c))); [|lia]. cbn [andb].
      destruct (pred_mod (Dimensions c) p ltac:(lia) ltac:(lia))
        as [[Hz Hm]|[Hnz [Hm Hd]]].
      * rewrite Hm, Hz.
        destruct (Z.ltb_spec (Dimensions c - 1) n); [lia|].
        destruct (Z.ltb_spec 0 (n + 1)); [|lia].
        reflexivity.
      * rewrite Hm, Hd.
        destruct (Z.eqb_spec (p mod Dimensions c) 0); [lia|].
        rewrite orb_false_r.
        replace (Z.to_nat (p mod Dimensions c))
          with (S (Z.to_nat (p mod Dimensions c - 1))) by lia.
        cbn [nth].
        destruct (Z.ltb_spec (p mod Dimensions c - 1) n),
                 (Z.ltb_spec (p mod Dimensions c) (n + 1));
          (reflexivity || lia).
Qed.

Lemma Encode_defined c this field0 fields :
  config_facts c -> Z.of_nat (length (field0 :: fields)) = Dimensions c ->
  Encode c this field0 fields = Some (EncodeInternal c this field0 fields).
Proof.
  intros [] Hlen. unfold Encode.
  rewrite to_size_t_small by lia.
  cbn [length] in Hlen. rewrite cf_int0. cbn [andb].
  destruct (Z.eqb_spec (Z.of_nat (length fields)) (Dimensions c - 1)); [reflexivity|lia].
Qed.

Lemma fits_nth F fields i :
  0 <= F -> Forall (fits F) fields -> fits F (nth i fields 0).
Proof.
  intros HF Hall. destruct (Nat.lt_ge_cases i (length fields)) as [Hi|Hi].
  - now apply Forall_nth.
  - rewrite nth_overflow by assumption. unfold fits.
    pose proof (Z.pow_pos_nonneg 2 F ltac:(lia) HF). lia.
Qed.

(** For clean inputs the chunk limit and the width of [T] drop out. *)
Lemma EncodeInternal_clean c this field0 fields p :
  config_facts c -> table_built c this ->
  Z.of_nat (length (field0 :: fields)) = Dimensions c ->
  Forall (fits (FieldBits c)) (field0 :: fields) ->
  0 <= p ->
  Z.testbit (EncodeInternal c this field0 fields) p =
  (p / Dimensions c <? FieldBits c)
  && Z.testbit (nth (Z.to_nat (p mod Dimensions c)) (field0 :: fields) 0)
               (p / Dimensions c).
Proof.
  intros Hf Ht Hlen Hfit Hp.
  rewrite EncodeInternal_testbit by (assumption || lia).
  pose proof Hf as [].
  pose proof (ChunkCount_covers c ltac:(lia) ltac:(lia)) as Hc.
  pose proof (Z.mod_pos_bound p (Dimensions c) ltac:(lia)) as B.
  pose proof (Z.div_mod p (Dimensions c) ltac:(lia)) as E.
  rewrite Hlen.
  destruct (Z.ltb_spec (p mod Dimensions c) (Dimensions c)); [|lia].
  rewrite andb_true_r.
  destruct (Z.ltb_spec (p / Dimensions c) (FieldBits c)) as [Hb|Hb].
  - destruct (Z.ltb_spec p (digits (T c))); [|nia].
    destruct (Z.ltb_spec (p / Dimensions c) (ChunkCount c * LutBits c)); [|lia].
    reflexivity.
  - cbn [andb].
    rewrite (testbit_above _ (FieldBits c));
      [now rewrite andb_false_r | apply fits_nth; [lia|assumption] | lia].
Qed.

(** ** The reference interleaver, bit by bit *)

Lemma b2z_shift_testbit x m p :
  0 <= m -> 0 <= p -> Z.testbit (Z.shiftl (Z.b2z x) m) p = (p =? m) && x.
Proof.
  intros Hm Hp. destruct (Z.ltb_spec p m) as [Hlt|Hge].
  - rewrite Z.shiftl_spec_low by assumption.
    destruct (Z.eqb_spec p m); [lia|reflexivity].
  - rewrite Z.shiftl_spec by assumption.
    destruct (Z.eqb_spec p m) as [->|Hne].
    + rewrite Z.sub_diag. apply Z.b2z_bit0.
    + destruct x; cbn [Z.b2z andb].
      * rewrite testbit_1 by lia. apply Z.eqb_neq. lia.
      * apply Z.bits_0.
Qed.

Lemma offset_group D k p :
  1 <= D -> 0 <= k < D -> 0 <= p ->
  ((k <=? p) && ((p - k) mod D =? 0)) = (p mod D =? k)
  /\ (p mod D = k -> (p - k) / D = p / D).
Proof.
  intros HD Hk Hp.
  pose proof (Z.div_mod p D ltac:(lia)) as E.
  pose proof (Z.mod_pos_bound p D ltac:(lia)) as B.
  pose proof (Z.div_pos p D Hp ltac:(lia)) as Q.
  split.
  - destruct (Z.eqb_spec (p mod D) k) as [Hm|Hm].
    + destruct (Z.leb_spec k p); [|nia]. cbn [andb]. apply Z.eqb_eq.
      symmetry. apply (Z.mod_unique (p - k) D (p / D)); lia.
    + destruct (Z.leb_spec k p); [|reflexivity]. cbn [andb]. apply Z.eqb_neq.
      intros Hz.
      pose proof (Z.div_mod (p - k) D ltac:(lia)) as E'. rewrite Hz in E'.
      apply Hm. symmetry. apply (Z.mod_unique p D ((p - k) / D)); lia.
  - intros Hm. symmetry. apply (Z.div_unique (p - k) D (p / D) 0); lia.
Qed.

Lemma interleave_bits_testbit D k field n p :
  1 <= D -> 0 <= k < D -> 0 <= p ->
  Z.testbit (interleave_bits D k field n) p =
  (p mod D =? k) && (p / D <? Z.of_nat n) && Z.testbit field (p / D).
Proof.
  intros HD Hk Hp.
  pose proof (Z.div_mod p D ltac:(lia)) as E.
  pose proof (Z.mod_pos_bound p D ltac:(lia)) as B.
  pose proof (Z.div_pos p D Hp ltac:(lia)) as Q.
  induction n as [|n IH].
  - cbn [interleave_bits]. rewrite Z.bits_0.
    destruct (Z.ltb_spec (p / D) (Z.of_nat 0)); [lia|].
    now rewrite andb_false_r.
  - cbn [interleave_bits].
    rewrite Z.lor_spec, IH, b2z_shift_testbit by nia.
    destruct (Z.eqb_spec (p mod D) k) as [Hm|Hm]; cbn [andb].
    + destruct (Z.eqb_spec p (k + D * Z.of_nat n)) as [Hpn|Hpn].
      * assert (Hq : p / D = Z.of_nat n) by nia. rewrite Hq.
        destruct (Z.ltb_spec (Z.of_nat n) (Z.of_nat n)); [lia|].
        destruct (Z.ltb_spec (Z.of_nat n) (Z.of_nat (S n))); [|lia].
        reflexivity.
      * cbn [andb]. rewrite orb_false_r.
        destruct (Z.ltb_spec (p / D) (Z.of_nat n)),
                 (Z.ltb_spec (p / D) (Z.of_nat (S n)));
          try reflexivity; try lia.
        exfalso. apply Hpn. nia.
    + destruct (Z.eqb_spec p (k + D * Z.of_nat n)) as [Hpn|Hpn]; [|reflexivity].
      exfalso. apply Hm. symmetry.
      apply (Z.mod_unique p D (Z.of_nat n)); lia.
Qed.

Lemma interleave_from_testbit D F fields k p :
  1 <= D -> 0 <= F -> 0 <= k -> k + Z.of_nat (length fields) <= D -> 0 <= p ->
  Z.testbit (interleave_from D F k fields) p =
  (k <=? p mod D) && (p mod D <? k + Z.of_nat (length fields))
  && (p / D <? F) && Z.testbit (nth (Z.to_nat (p mod D - k)) fields 0) (p / D).
Proof.
  intros HD HF. revert k.
  induction fields as [|f rest IH]; intros k Hk Hlen Hp.
  - cbn [interleave_from length]. rewrite Z.bits_0.
    destruct (Z.leb_spec k (p mod D)), (Z.ltb_spec (p mod D) (k + Z.of_nat 0));
      (reflexivity || lia).
  - cbn [interleave_from]. cbn [length] in Hlen |- *.
    rewrite Z.lor_spec, interleave_bits_testbit, IH by lia.
    rewrite Z2Nat.id by lia.
    destruct (Z.eqb_spec (p mod D) k) as [Hm|Hm].
    + rewrite Hm, Z.sub_diag. cbn [Z.to_nat nth andb].
      destruct (Z.leb_spec (k + 1) k); [lia|]. cbn [andb]. rewrite orb_false_r.
      destruct (Z.leb_spec k k); [|lia].
      destruct (Z.ltb_spec k (k + Z.of_nat (S (length rest)))); [|lia].
      reflexivity.
    + cbn [andb orb].
      destruct (Z.leb_spec (k + 1) (p mod D)), (Z.leb_spec k (p mod D));
        try lia.
      replace (Z.to_nat (p mod D - k)) with (S (Z.to_nat (p mod D - (k + 1)))) by lia.
      cbn [nth].
      destruct (Z.ltb_spec (p mod D) (k + 1 + Z.of_nat (length rest))),
               (Z.ltb_spec (p mod D) (k + Z.of_nat (S (length rest))));
        (reflexivity || lia).
Qed.

Lemma naive_interleave_testbit D F fields p :
  1 <= D -> 0 <= F -> Z.of_nat (length fields) = D -> 0 <= p ->
  Z.testbit (naive_interleave D F fields) p =
  (p / D <? F) && Z.testbit (nth (Z.to_nat (p mod D)) fields 0) (p / D).
Proof.
  intros HD HF Hlen Hp. unfold naive_interleave.
  rewrite interleave_from_testbit by lia.
  pose proof (Z.mod_pos_bound p D ltac:(lia)) as B.
  rewrite Z.sub_0_r, Hlen.
  destruct (Z.leb_spec 0 (p mod D)); [|lia].
  destruct (Z.ltb_spec (p mod D) (0 + D)); [|lia].
  reflexivity.
Qed.

(** ** The encoder against its contract *)

Lemma group_position D k b :
  1 <= D -> 0 <= k < D -> (k + D * b) mod D = k /\ (k + D * b) / D = b.
Proof.
  intros HD Hk. split.
  - symmetry. apply (Z.mod_unique (k + D * b) D b); lia.
  - symmetry. apply (Z.div_unique (k + D * b) D b k); lia.
Qed.

Lemma EncodeInternal_interleaved c this field0 fields :
  config_facts c -> table_built c this ->
  Z.of_nat (length (field0 :: fields)) = Dimensions c ->
  Forall (fits (FieldBits c)) (field0 :: fields) ->
  interleaved (Dimensions c) (FieldBits c) (field0 :: fields)
              (EncodeInternal c this field0 fields).
Proof.
  intros Hf Ht Hlen Hfit. pose proof Hf as [].
  split.
  - intros k b Hk Hb.
    rewrite EncodeInternal_clean by (assumption || nia).
    destruct (group_position (Dimensions c) k b ltac:(lia) Hk) as [-> ->].
    destruct (Z.ltb_spec b (FieldBits c)); [reflexivity|lia].
  - intros p Hp.
    rewrite EncodeInternal_clean by (assumption || nia).
    assert (FieldBits c <= p / Dimensions c) by (apply div_ge_iff; lia).
    destruct (Z.ltb_spec (p / Dimensions c) (FieldBits c)); [lia|reflexivity].
Qed.

Lemma EncodeInternal_naive c this field0 fields :
  config_facts c -> table_built c this ->
  Z.of_nat (length (field0 :: fields)) = Dimensions c ->
  Forall (fits (FieldBits c)) (field0 :: fields) ->
  EncodeInternal c this field0 fields =
  naive_interleave (Dimensions c) (FieldBits c) (field0 :: fields).
Proof.
  intros Hf Ht Hlen Hfit. pose proof Hf as [].
  apply Z.bits_inj'. intros p Hp.
  rewrite EncodeInternal_clean, naive_interleave_testbit by (assumption || lia).
  reflexivity.
Qed.

(** For any input, clean or dirty. *)
Lemma EncodeInternal_any c this field0 fields :
  config_facts c -> table_built c this ->
  Z.of_nat (length (field0 :: fields)) = Dimensions c ->
  EncodeInternal c this field0 fields =
  to_T c (naive_interleave (Dimensions c) (ChunkCount c * LutBits c) (field0 :: fields)).
Proof.
  intros Hf Ht Hlen. pose proof Hf as [].
  pose proof (ChunkCount_covers c ltac:(lia) ltac:(lia)) as Hc.
  apply Z.bits_inj'. intros p Hp.
  rewrite EncodeInternal_testbit by (assumption || lia).
  unfold to_T. rewrite to_unsigned_testbit by nia.
  rewrite naive_interleave_testbit by (assumption || nia).
  pose proof (Z.mod_pos_bound p (Dimensions c) ltac:(lia)) as B.
  rewrite Hlen.
  destruct (Z.ltb_spec (p mod Dimensions c) (Dimensions c)); [|lia].
  now rewrite andb_true_r, andb_assoc.
Qed.

(** * The specification, statement by statement *)

(** C1. For every valid configuration and every tuple of [Dimensions] fields
    that each use no more than [FieldBits] least-significant bits, [Encode]
    returns a value [r]; bit [k + Dimensions * b] of [r] is bit [b] of field
    [k] for all [b < FieldBits], [k < Dimensions]; the bits of [r] from
    [Dimensions * FieldBits] upward are zero; and [r] is the value the naive
    bit-by-bit reference interleaver computes. *)
Theorem Encode_interleaves c this field0 fields :
  valid_config c = true ->
  construct c = Some this ->
  Z.of_nat (length (field0 :: fields)) = Dimensions c ->
  Forall (fits (FieldBits c)) (field0 :: fields) ->
  exists r,
    Encode c this field0 fields = Some r
    /\ interleaved (Dimensions c) (FieldBits c) (field0 :: fields) r
    /\ r = naive_interleave (Dimensions c) (FieldBits c) (field0 :: fields).
Proof.
  intros Hv Hc Hlen Hfit.
  apply valid_config_facts in Hv. apply construct_table in Hc.
  exists (EncodeInternal c this field0 fields). split; [|split].
  - now apply Encode_defined.
  - now apply EncodeInternal_interleaved.
  - now apply EncodeInternal_naive.
Qed.

Lemma Encode_interleaves_witness :
  exists r,
    Encode cfg_3_10_4 (built cfg_3_10_4) 1000 [513; 77] = Some r
    /\ interleaved 3 10 [1000; 513; 77] r
    /\ r = naive_interleave 3 10 [1000; 513; 77].
Proof.
  apply (Encode_interleaves cfg_3_10_4 (built cfg_3_10_4) 1000 [513; 77]).
  - reflexivity.
  - reflexivity.
  - reflexivity.
  - repeat constructor; unfold fits; simpl; lia.
Defined.

(** C2. For a fixed [(Dimensions, FieldBits)] and a fixed tuple of in-range
    fields, any two valid configurations (whatever their [LutBits], and
    whatever their [T]) encode the tuple to the same value. *)
Theorem Encode_chunking_invariant c1 c2 this1 this2 field0 fields :
  valid_config c1 = true -> valid_config c2 = true ->
  Dimensions c1 = Dimensions c2 -> FieldBits c1 = FieldBits c2 ->
  construct c1 = Some this1 -> construct c2 = Some this2 ->
  Z.of_nat (length (field0 :: fields)) = Dimensions c1 ->
  Forall (fits (FieldBits c1)) (field0 :: fields) ->
  exists r,
    Encode c1 this1 field0 fields = Some r
    /\ Encode c2 this2 field0 fields = Some r.
Proof.
  intros Hv1 Hv2 HD HF Hc1 Hc2 Hlen Hfit.
  apply valid_config_facts in Hv1, Hv2. apply construct_table in Hc1, Hc2.
  exists (EncodeInternal c1 this1 field0 fields). split.
  - now apply Encode_defined.
  - rewrite Encode_defined by (assumption || congruence). f_equal.
    rewrite (EncodeInternal_naive c1) by assumption.
    rewrite (EncodeInternal_naive c2) by (assumption || congruence).
    now rewrite HD, HF.
Qed.

Lemma Encode_chunking_invariant_witness :
  exists r,
    Encode (cfg_2_16 8) (built (cfg_2_16 8)) 51966 [47806] = Some r
    /\ Encode (cfg_2_16 1) (built (cfg_2_16 1)) 51966 [47806] = Some r.
Proof.
  apply (Encode_chunking_invariant (cfg_2_16 8) (cfg_2_16 1)).
  - reflexivity.
  - reflexivity.
  - reflexivity.
  - reflexivity.
  - reflexivity.
  - reflexivity.
  - reflexivity.
  - repeat constructor; unfold fits; simpl; lia.
Defined.

(** C3 fails as stated: [std::size_t] has 64 bits, and a spread bit that
    would land at position 64 or above is shifted out.  Three remaining bits
    at stride 32 put bit 2 of the input at position 64. *)
Lemma SplitByN_spread_counterexample :
  (1 <= 3)%nat /\ fits 3 4 /\ 1 <= 32
  /\ mortonnd.SplitByN 3 4 32 = 0
  /\ ~ spread_form (mortonnd.SplitByN 3 4 32) 4 32.
Proof.
  unfold fits. repeat split; try (reflexivity || lia).
  intros H. specialize (H 2 0 ltac:(lia) ltac:(lia)).
  vm_compute in H. discriminate.
Qed.

(** C3, amended.  [SplitByN<1>(input, stride)] is [input & 1]; for
    [remainingBits >= 2], [SplitByN<remainingBits>(input, stride)] is
    [(SplitByN<remainingBits - 1>(input >> 1, stride) << stride) | (input & 1)];
    and for every input that fits in [remainingBits] bits and every stride
    [>= 1] with [(remainingBits - 1) * stride < 64] (every spread bit lands
    inside [std::size_t], so that the shift loses nothing), the result is
    the spread form of the input: bit 0 of group [j] is bit [j] of the
    input, every other bit of every group is 0. *)
Theorem SplitByN_spread n x s :
  (1 <= n)%nat -> fits (Z.of_nat n) x -> 1 <= s -> (Z.of_nat n - 1) * s < 64 ->
  mortonnd.SplitByN 1 x s = Z.land x 1
  /\ ((2 <= n)%nat ->
      mortonnd.SplitByN n x s =
      Z.lor (Z.shiftl (mortonnd.SplitByN (n - 1) (Z.shiftr x 1) s) s) (Z.land x 1))
  /\ spread_form (mortonnd.SplitByN n x s) x s.
Proof.
  intros Hn Hx Hs Hfit. split; [reflexivity|]. split.
  - intros H2. destruct n as [|[|n]]; try lia.
    rewrite SplitByN_step. f_equal.
    replace (S (S n) - 1)%nat with (S n) by lia.
    apply to_size_t_small. split.
    + apply Z.shiftl_nonneg, SplitByN_nonneg.
    + pose proof (SplitByN_bound (S n) (Z.shiftr x 1) s ltac:(lia) Hs ltac:(nia)) as B.
      rewrite Z.shiftl_mul_pow2 by lia.
      pose proof (SplitByN_nonneg (S n) (Z.shiftr x 1) s).
      assert (E : 2 ^ ((Z.of_nat (S n) - 1) * s + 1) * 2 ^ s <= 2 ^ 64).
      { rewrite <- Z.pow_add_r by nia. apply Z.pow_le_mono_r; nia. }
      pose proof (Z.pow_pos_nonneg 2 s ltac:(lia) ltac:(lia)). nia.
  - intros j i Hj Hi.
    rewrite SplitByN_testbit by (assumption || nia).
    assert (Hm : (j * s + i) mod s = i).
    { symmetry. apply (Z.mod_unique (j * s + i) s j); lia. }
    assert (Hd : (j * s + i) / s = j).
    { symmetry. apply (Z.div_unique (j * s + i) s j i); lia. }
    rewrite Hm, Hd.
    destruct (Z.ltb_spec j (Z.of_nat n)); [now rewrite andb_true_r|].
    rewrite (testbit_above x (Z.of_nat n)) by (assumption || lia).
    now rewrite !andb_false_r.
Qed.

Lemma SplitByN_spread_witness :
  mortonnd.SplitByN 1 5 3 = Z.land 5 1
  /\ ((2 <= 3)%nat ->
      mortonnd.SplitByN 3 5 3 =
      Z.lor (Z.shiftl (mortonnd.SplitByN (3 - 1) (Z.shiftr 5 1) 3) 3) (Z.land 5 1))
  /\ spread_form (mortonnd.SplitByN 3 5 3) 5 3.
Proof.
  apply (SplitByN_spread 3 5 3); [lia | unfold fits; simpl; lia | lia | simpl; lia].
Defined.

Lemma group_position_of s j i :
  1 <= s -> 0 <= i < s -> (j * s + i) mod s = i /\ (j * s + i) / s = j.
Proof.
  intros Hs Hi. split.
  - symmetry. apply (Z.mod_unique (j * s + i) s j); lia.
  - symmetry. apply (Z.div_unique (j * s + i) s j i); lia.
Qed.

Lemma run_keeps_object c ks : forall this, fst (run c this ks) = this.
Proof.
  induction ks as [|k rest IH]; intros this; [reflexivity|].
  cbn [run]. destruct (invoke c this k) as [this' r] eqn:Ek.
  specialize (IH this'). destruct (run c this' rest) as [this'' rs].
  cbn [fst] in IH |- *. subst this''.
  destruct k; cbn [invoke] in Ek; now inversion Ek.
Qed.

(** The spread form of an input of at most [n] bits, where no spread bit
    leaves [std::size_t]. *)
Lemma SplitByN_has_spread_form n x s :
  (1 <= n)%nat -> fits (Z.of_nat n) x -> 1 <= s -> (Z.of_nat n - 1) * s < 64 ->
  spread_form (mortonnd.SplitByN n x s) x s.
Proof.
  intros Hn Hx Hs Hfit j i Hj Hi.
  rewrite SplitByN_testbit by (assumption || nia).
  destruct (group_position_of s j i Hs Hi) as [-> ->].
  destruct (Z.ltb_spec j (Z.of_nat n)); [now rewrite andb_true_r|].
  rewrite (testbit_above x (Z.of_nat n)) by (assumption || lia).
  now rewrite !andb_false_r.
Qed.

(** C4. For every valid configuration the table built at construction has
    exactly [2 ^ LutBits] entries; for every [i] below [2 ^ LutBits], entry
    [i] is [SplitByN<LutBits>(i, Dimensions)] and is the
    stride-[Dimensions] bit-spread of [i] (read from the LSB upward in
    groups of [Dimensions] bits, bit 0 of group [j] is bit [j] of [i] and
    every other bit is 0); and after any sequence of calls of the member
    functions the table is the one that was built. *)
Theorem LookupTable_contents c this :
  valid_config c = true ->
  construct c = Some this ->
  Z.of_nat (length (LookupTable this)) = 2 ^ LutBits c
  /\ (forall i, 0 <= i < 2 ^ LutBits c ->
       nth (Z.to_nat i) (LookupTable this) 0 =
       mortonnd.SplitByN (Z.to_nat (LutBits c)) i (Dimensions c)
       /\ spread_form (nth (Z.to_nat i) (LookupTable this) 0) i (Dimensions c))
  /\ (forall ks, LookupTable (fst (run c this ks)) = LookupTable this).
Proof.
  intros Hv Hc. apply valid_config_facts in Hv. apply construct_table in Hc.
  split; [|split].
  - rewrite Hc. unfold BuildLut.
    rewrite length_map, make_index_sequence_length, LutSize_exact by assumption.
    destruct Hv. pose proof (Z.pow_pos_nonneg 2 (LutBits c) ltac:(lia) ltac:(lia)).
    lia.
  - intros i Hi.
    assert (E : nth (Z.to_nat i) (LookupTable this) 0 =
                mortonnd.SplitByN (Z.to_nat (LutBits c)) i (Dimensions c))
      by now apply (table_at c).
    split; [exact E|]. rewrite E. destruct Hv.
    apply SplitByN_has_spread_form;
      first [lia | unfold fits; rewrite Z2Nat.id by lia; lia
            | rewrite Z2Nat.id by lia; nia].
  - intros ks. now rewrite run_keeps_object.
Qed.

Lemma LookupTable_contents_witness :
  Z.of_nat (length (LookupTable (built (cfg_2_16 8)))) = 2 ^ 8
  /\ (forall i, 0 <= i < 2 ^ 8 ->
       nth (Z.to_nat i) (LookupTable (built (cfg_2_16 8))) 0 =
       mortonnd.SplitByN (Z.to_nat 8) i 2
       /\ spread_form (nth (Z.to_nat i) (LookupTable (built (cfg_2_16 8))) 0) i 2)
  /\ (forall ks,
        LookupTable (fst (run (cfg_2_16 8) (built (cfg_2_16 8)) ks))
        = LookupTable (built (cfg_2_16 8))).
Proof.
  apply (LookupTable_contents (cfg_2_16 8) (built (cfg_2_16 8))); reflexivity.
Defined.

(** ** Construction and its rejections *)

Lemma nonzero_ltb d : 0 <= d -> negb (d =? 0) = (0 <? d).
Proof.
  intros H. destruct (Z.eqb_spec d 0), (Z.ltb_spec 0 d); (reflexivity || lia).
Qed.

Lemma size_t_value_range x : size_t_value x = true -> 0 <= x < 2 ^ 64.
Proof.
  unfold size_t_value. intros H. apply andb_prop in H. destruct H as [H1 H2].
  apply Z.leb_le in H1. apply Z.ltb_lt in H2. lia.
Qed.

(** Without overflow in the products, the [static_assert]s pass exactly
    when none of the checked conditions holds. *)
Lemma static_asserts_checked c :
  size_t_value (Dimensions c) = true ->
  size_t_value (FieldBits c) = true ->
  size_t_value (LutBits c) = true ->
  Dimensions c * LutBits c < 2 ^ 64 ->
  Dimensions c * FieldBits c < 2 ^ 64 ->
  static_asserts c = negb (invalid_as_checked c).
Proof.
  intros HD HF HL HDL HDF.
  apply size_t_value_range in HD, HF, HL.
  unfold static_asserts, invalid_as_checked, LutValueWidth, size_t_digits.
  rewrite (to_size_t_small (LutBits c * Dimensions c)) by nia.
  rewrite (to_size_t_small (Dimensions c * FieldBits c)) by nia.
  rewrite !negb_orb, !negb_andb, !negb_involutive.
  rewrite !nonzero_ltb by lia.
  rewrite <- !Z.leb_antisym.
  rewrite (Z.mul_comm (LutBits c) (Dimensions c)).
  btauto.
Qed.

(** The products in the [static_assert]s are products of [std::size_t]: with
    [Dimensions = 2 ^ 63] and [LutBits = FieldBits = 2] both wrap to 0 and
    every [static_assert] passes. *)
Lemma static_asserts_wrap_example :
  static_asserts (mkConfig (2 ^ 63) 2 2 uint8_t) = true
  /\ valid_config (mkConfig (2 ^ 63) 2 2 uint8_t) = false.
Proof. split; reflexivity. Qed.

(** C5 fails as stated: for a type that is not integral the class checks
    neither signedness nor width.  [double] is signed, and
    [MortonNDLutEncoder<2, 16, 8, double>] is accepted. *)
Lemma construct_accepts_signed_counterexample :
  is_signed double_t = true
  /\ invalid_as_listed (mkConfig 2 16 8 double_t) = true
  /\ static_asserts (mkConfig 2 16 8 double_t) = true
  /\ construct (mkConfig 2 16 8 double_t) = Some (built (mkConfig 2 16 8 double_t)).
Proof. repeat split; reflexivity. Qed.

(** An accepted configuration with an integral [T] is a valid one. *)
Lemma accepted_integral_facts c :
  size_t_value (Dimensions c) = true ->
  size_t_value (FieldBits c) = true ->
  size_t_value (LutBits c) = true ->
  Dimensions c * LutBits c < 2 ^ 64 ->
  Dimensions c * FieldBits c < 2 ^ 64 ->
  static_asserts c = true ->
  is_integral (T c) = true ->
  config_facts c.
Proof.
  intros HD HF HL HDL HDF Hs Hi.
  rewrite (static_asserts_checked c HD HF HL HDL HDF) in Hs.
  apply negb_true_iff in Hs.
  apply size_t_value_range in HD, HF, HL.
  unfold invalid_as_checked, size_t_digits in Hs. rewrite Hi in Hs. cbn [andb] in Hs.
  repeat (apply orb_false_elim in Hs; destruct Hs as [Hs ?]).
  repeat match goal with
         | X : negb _ = false |- _ => apply negb_false_iff in X
         | X : (_ =? _) = false |- _ => apply Z.eqb_neq in X
         | X : (_ <? _) = false |- _ => apply Z.ltb_ge in X
         end.
  split; try assumption; try lia; nia.
Qed.

(** The guard at work on a signed integral [T]:
    [MortonNDLutEncoder<2, 16, 8, int32_t>] is rejected. *)
Lemma construct_rejects_signed_integral :
  invalid_as_checked (mkConfig 2 16 8 int32_t) = true
  /\ construct (mkConfig 2 16 8 int32_t) = None.
Proof. split; reflexivity. Qed.

(** C5, amended.  For template arguments whose products
    [Dimensions * LutBits] and [Dimensions * FieldBits] do not overflow
    [std::size_t], construction is rejected (at compile time, by the class's
    [static_assert]s) exactly when one of these holds: [Dimensions == 0];
    [FieldBits == 0]; [LutBits == 0]; [LutBits > FieldBits]; [LutBits > 32];
    [Dimensions * LutBits] exceeds 64 or the width of [std::size_t];
    [ValueType] is an integral type that is not unsigned; [ValueType] is an
    integral type with fewer than [Dimensions * FieldBits] value bits; or
    [std::size_t] cannot be constructed from [ValueType].  Nothing is left
    to fail at run time: on an accepted configuration with an integral
    [ValueType], [Encode] called with [Dimensions] arguments returns a
    value for arbitrary fields, the interleave of the low
    [ChunkCount * LutBits] bits of each field cut to [ValueType]. *)
Theorem construct_rejects_invalid c :
  size_t_value (Dimensions c) = true ->
  size_t_value (FieldBits c) = true ->
  size_t_value (LutBits c) = true ->
  Dimensions c * LutBits c < 2 ^ 64 ->
  Dimensions c * FieldBits c < 2 ^ 64 ->
  (construct c = None <-> invalid_as_checked c = true)
  /\ (is_integral (T c) = true ->
      forall this field0 fields,
        construct c = Some this ->
        Z.of_nat (length (field0 :: fields)) = Dimensions c ->
        Encode c this field0 fields =
        Some (naive_interleave (Dimensions c) (ChunkCount c * LutBits c)
                (field0 :: fields) mod 2 ^ digits (T c))).
Proof.
  intros HD HF HL HDL HDF.
  pose proof (static_asserts_checked c HD HF HL HDL HDF) as E.
  split.
  - unfold construct. rewrite E.
    destruct (invalid_as_checked c); cbn [negb]; split; intros H;
      (reflexivity || discriminate).
  - intros Hi this field0 fields Hc Hlen.
    assert (Hs : static_asserts c = true).
    { unfold construct in Hc. destruct (static_asserts c); [reflexivity|discriminate]. }
    pose proof (accepted_integral_facts c HD HF HL HDL HDF Hs Hi) as Hf.
    apply construct_table in Hc.
    rewrite Encode_defined by assumption. f_equal.
    now apply EncodeInternal_any.
Qed.

Lemma construct_rejects_invalid_witness :
  (construct (cfg_2_16 8) = None <-> invalid_as_checked (cfg_2_16 8) = true)
  /\ (is_integral (T (cfg_2_16 8)) = true ->
      forall this field0 fields,
        construct (cfg_2_16 8) = Some this ->
        Z.of_nat (length (field0 :: fields)) = Dimensions (cfg_2_16 8) ->
        Encode (cfg_2_16 8) this field0 fields =
        Some (naive_interleave (Dimensions (cfg_2_16 8))
                (ChunkCount (cfg_2_16 8) * LutBits (cfg_2_16 8))
                (field0 :: fields) mod 2 ^ digits (T (cfg_2_16 8)))).
Proof.
  apply (construct_rejects_invalid (cfg_2_16 8));
    (reflexivity || (simpl; lia)).
Defined.

(** ** The input mask *)

Lemma InputMask_not_promoted c :
  valid_config c = true ->
  int_digits < digits (T c) < 2 ^ int_digits ->
  InputMask c = Some (Z.shiftl 1 (FieldBits c) - 1).
Proof.
  intros Hv Hwide. apply valid_config_facts in Hv. destruct Hv.
  assert (Hw : FieldBits c <= digits (T c)) by nia.
  unfold int_digits in Hwide.
  unfold InputMask, bit_not, promotes_to_int, to_T, int_digits.
  rewrite cf_int0. f_equal.
  destruct (Z.leb_spec (digits (T c)) 31); [lia|].
  rewrite andb_false_r.
  rewrite (to_size_t_small (digits (T c) - FieldBits c)) by lia.
  change (Z.shiftl 1 (FieldBits c) - 1) with (Z.ones (FieldBits c)).
  apply Z.bits_inj'. intros p Hp.
  rewrite to_unsigned_testbit, Z.shiftr_spec, to_unsigned_testbit by lia.
  rewrite Z.lnot_spec by lia.
  rewrite (to_unsigned_small _ 0)
    by (pose proof (Z.pow_pos_nonneg 2 (digits (T c)) ltac:(lia) ltac:(lia)); lia).
  rewrite Z.bits_0. cbn [negb]. rewrite andb_true_r.
  destruct (Z.ltb_spec p (FieldBits c)).
  - rewrite Z.ones_spec_low by lia.
    destruct (Z.ltb_spec p (digits (T c))); [|lia].
    destruct (Z.ltb_spec (p + (digits (T c) - FieldBits c)) (digits (T c)));
      [reflexivity|lia].
  - rewrite Z.ones_spec_high by lia.
    destruct (Z.ltb_spec (p + (digits (T c) - FieldBits c)) (digits (T c))); [lia|].
    now rewrite andb_false_r.
Qed.

(** X1. For a valid configuration whose [T] is at least as wide as
    [unsigned int] nothing is promoted, and [InputMask()] is
    [(1 << FieldBits) - 1], also when [FieldBits] is the full width of [T]. *)
Theorem InputMask_wide c :
  valid_config c = true ->
  int_digits < digits (T c) < 2 ^ int_digits ->
  InputMask c = Some (Z.shiftl 1 (FieldBits c) - 1).
Proof. intros Hv Hw. now apply InputMask_not_promoted. Qed.

Lemma InputMask_wide_witness :
  InputMask (mkConfig 1 32 8 uint32_t) = Some (Z.shiftl 1 32 - 1).
Proof.
  apply (InputMask_wide (mkConfig 1 32 8 uint32_t));
    [reflexivity | unfold int_digits; simpl; lia].
Defined.

(** X2. For a valid configuration whose [T] is narrower than [int] the
    operand of [~] is promoted, the shift works on the [int] -1, and
    [InputMask()] has every bit of [T] set, whatever [FieldBits] is. *)
Theorem InputMask_narrow c :
  valid_config c = true ->
  digits (T c) <= int_digits ->
  InputMask c = Some (2 ^ digits (T c) - 1).
Proof.
  intros Hv Hnarrow. apply valid_config_facts in Hv. destruct Hv.
  assert (Hw : FieldBits c <= digits (T c)) by nia.
  unfold int_digits in Hnarrow.
  unfold InputMask, bit_not, promotes_to_int, to_T, int_digits.
  rewrite cf_int0. f_equal.
  destruct (Z.leb_spec (digits (T c)) 31); [|lia]. cbn [andb].
  rewrite (to_size_t_small (digits (T c) - FieldBits c)) by lia.
  rewrite (to_unsigned_small _ 0)
    by (pose proof (Z.pow_pos_nonneg 2 (digits (T c)) ltac:(lia) ltac:(lia)); lia).
  change (Z.lnot 0) with (-1).
  replace (2 ^ digits (T c) - 1) with (Z.ones (digits (T c)))
    by (rewrite Z.ones_equiv; lia).
  apply Z.bits_inj'. intros p Hp.
  rewrite to_unsigned_testbit, Z.shiftr_spec by lia.
  rewrite Z.bits_m1 by lia. rewrite andb_true_r.
  destruct (Z.ltb_spec p (digits (T c))).
  - now rewrite Z.ones_spec_low by lia.
  - now rewrite Z.ones_spec_high by lia.
Qed.

Lemma InputMask_narrow_witness :
  InputMask (mkConfig 3 5 5 uint16_t) = Some (2 ^ 16 - 1).
Proof.
  apply (InputMask_narrow (mkConfig 3 5 5 uint16_t));
    [reflexivity | unfold int_digits; simpl; lia].
Defined.

Lemma mask_idempotent x m : Z.land (Z.land x m) m = Z.land x m.
Proof. now rewrite <- Z.land_assoc, Z.land_diag. Qed.

(** C6, the code at an 8-bit [T]: [MortonNDLutEncoder<2, 3, 3, uint8_t>] is
    a valid configuration; [(1 << FieldBits) - 1] is 7; [InputMask()]
    returns 255, and masking the dirty input 255 with it clears nothing. *)
Theorem InputMask_uint8_all_ones :
  valid_config (mkConfig 2 3 3 uint8_t) = true
  /\ Z.shiftl 1 (FieldBits (mkConfig 2 3 3 uint8_t)) - 1 = 7
  /\ InputMask (mkConfig 2 3 3 uint8_t) = Some 255
  /\ option_map (Z.land 255) (InputMask (mkConfig 2 3 3 uint8_t)) = Some 255.
Proof. repeat split; reflexivity. Qed.

(** C7. With [Dimensions = 2], [FieldBits = 8], [LutBits = 4] (and the
    default [T], or a 64-bit one), [Encode(5, 9)] is 147, [0b10010011]. *)
Theorem Encode_5_9 :
  construct (cfg_2_8_4 (FastInt (2 * 8))) = Some (built (cfg_2_8_4 (FastInt (2 * 8))))
  /\ Encode (cfg_2_8_4 (FastInt (2 * 8))) (built (cfg_2_8_4 (FastInt (2 * 8)))) 5 [9]
     = Some 147
  /\ construct (cfg_2_8_4 uint64_t) = Some (built (cfg_2_8_4 uint64_t))
  /\ Encode (cfg_2_8_4 uint64_t) (built (cfg_2_8_4 uint64_t)) 5 [9] = Some 147.
Proof. repeat split; reflexivity. Qed.

(** ** Counting the lookups *)

Lemma ceil_div_floor a b : 0 < b -> ceil_div a b = - ((- a) / b).
Proof.
  intros Hb. unfold ceil_div, Qceiling, Qfloor. cbn [Qopp Qnum Qden].
  now rewrite Z2Pos.id by assumption.
Qed.

Lemma ceil_div_formula a b :
  0 < a -> 0 < b -> 1 + (a - 1) / b = ceil_div a b.
Proof.
  intros Ha Hb. rewrite ceil_div_floor by assumption.
  pose proof (Z.div_mod (a - 1) b ltac:(lia)) as E.
  pose proof (Z.mod_pos_bound (a - 1) b Hb) as B.
  rewrite <- (Z.div_unique (- a) b (- ((a - 1) / b) - 1) (b - (a - 1) mod b - 1));
    lia.
Qed.

Lemma LookupField_traced_spec c this I field :
  fst (LookupField_traced c this field I) = LookupField c this field I
  /\ length (snd (LookupField_traced c this field I)) = length I.
Proof.
  revert field. induction I as [|i0 args IH]; intros field; [now split|].
  destruct args as [|i1 args]; [now split|].
  specialize (IH (Z.shiftr field (LutBits c))).
  change (LookupField_traced c this field (i0 :: i1 :: args)) with
    (let (hi, reads) := LookupField_traced c this (Z.shiftr field (LutBits c)) (i1 :: args) in
     (to_T c (Z.lor (Z.shiftl hi (to_size_t (Dimensions c * LutBits c)))
                    (to_T c (at_ this (to_size_t (Z.land field (ChunkMask c)))))),
      to_size_t (Z.land field (ChunkMask c)) :: reads)).
  change (LookupField c this field (i0 :: i1 :: args)) with
    (to_T c (Z.lor
       (Z.shiftl (LookupField c this (Z.shiftr field (LutBits c)) (i1 :: args))
                 (to_size_t (Dimensions c * LutBits c)))
       (to_T c (at_ this (to_size_t (Z.land field (ChunkMask c))))))).
  destruct (LookupField_traced c this (Z.shiftr field (LutBits c)) (i1 :: args))
    as [hi reads].
  cbn [fst snd] in IH |- *. destruct IH as [-> IHlen].
  split; [reflexivity|]. cbn [length] in IHlen |- *. now rewrite IHlen.
Qed.

(** C8. For every [FieldBits > 0] and [LutBits > 0], [ChunkCount], the code's
    [1 + ((FieldBits - 1) / LutBits)] with truncating division, is
    [ceil(FieldBits / LutBits)]; and one [LookupField] of a field reads the
    table exactly [ChunkCount] times. *)
Theorem ChunkCount_is_ceiling c :
  0 < FieldBits c < 2 ^ 64 -> 0 < LutBits c ->
  ChunkCount c = 1 + (FieldBits c - 1) / LutBits c
  /\ ChunkCount c = ceil_div (FieldBits c) (LutBits c)
  /\ forall this field,
       fst (LookupField_traced c this field (make_index_sequence (ChunkCount c)))
       = LookupField c this field (make_index_sequence (ChunkCount c))
       /\ Z.of_nat (length (snd (LookupField_traced c this field
                                   (make_index_sequence (ChunkCount c)))))
          = ChunkCount c.
Proof.
  intros HF HL.
  pose proof (ChunkCount_formula c HF HL) as E.
  split; [assumption|]. split.
  - rewrite E. apply ceil_div_formula; lia.
  - intros this field.
    destruct (LookupField_traced_spec c this (make_index_sequence (ChunkCount c)) field)
      as [Hv Hn].
    split; [assumption|].
    rewrite Hn, make_index_sequence_length.
    pose proof (ChunkCount_covers c HF HL). nia.
Qed.

Lemma ChunkCount_is_ceiling_witness :
  ChunkCount (mkConfig 3 21 11 uint64_t) = 1 + (21 - 1) / 11
  /\ ChunkCount (mkConfig 3 21 11 uint64_t) = ceil_div 21 11
  /\ forall this field,
       fst (LookupField_traced (mkConfig 3 21 11 uint64_t) this field
              (make_index_sequence (ChunkCount (mkConfig 3 21 11 uint64_t))))
       = LookupField (mkConfig 3 21 11 uint64_t) this field
           (make_index_sequence (ChunkCount (mkConfig 3 21 11 uint64_t)))
       /\ Z.of_nat (length (snd (LookupField_traced (mkConfig 3 21 11 uint64_t) this field
                                   (make_index_sequence
                                      (ChunkCount (mkConfig 3 21 11 uint64_t))))))
          = ChunkCount (mkConfig 3 21 11 uint64_t).
Proof.
  apply (ChunkCount_is_ceiling (mkConfig 3 21 11 uint64_t)); simpl; lia.
Defined.

(** ** Dirty inputs *)

Lemma land_ones_testbit x n b :
  0 <= n -> 0 <= b -> Z.testbit (Z.land x (Z.ones n)) b = Z.testbit x b && (b <? n).
Proof.
  intros Hn Hb. rewrite Z.land_spec.
  destruct (Z.ltb_spec b n).
  - now rewrite Z.ones_spec_low by lia.
  - now rewrite Z.ones_spec_high by lia.
Qed.

Lemma EncodeInternal_masked c this field0 fields :
  config_facts c -> table_built c this ->
  Z.of_nat (length (field0 :: fields)) = Dimensions c ->
  EncodeInternal c this field0 fields =
  EncodeInternal c this
    (Z.land field0 (Z.ones (ChunkCount c * LutBits c)))
    (map (fun f => Z.land f (Z.ones (ChunkCount c * LutBits c))) fields).
Proof.
  intros Hf Ht Hlen. pose proof Hf as [].
  pose proof (ChunkCount_covers c ltac:(lia) ltac:(lia)) as Hc.
  set (M := Z.ones (ChunkCount c * LutBits c)).
  apply Z.bits_inj'. intros p Hp.
  rewrite !EncodeInternal_testbit
    by (assumption || (cbn [length] in *; rewrite ?length_map; lia)).
  cbn [length]. rewrite length_map.
  change (Z.land field0 M :: map (fun f => Z.land f M) fields)
    with (map (fun f => Z.land f M) (field0 :: fields)).
  pose proof (map_nth (fun f => Z.land f M) (field0 :: fields) 0
                (Z.to_nat (p mod Dimensions c))) as E.
  cbn beta in E. change (Z.land 0 M) with 0 in E. rewrite E. clear E.
  unfold M. rewrite land_ones_testbit by (try apply Z.div_pos; nia).
  destruct (Z.ltb_spec (p / Dimensions c) (ChunkCount c * LutBits c));
    [now rewrite !andb_true_r | now rewrite !andb_false_r].
Qed.

(** C9. For every valid configuration and arbitrary inputs, [Encode] depends
    only on the low [ChunkCount * LutBits] bits of each field:
    [Encode(f0, ..., fn) == Encode(f0 & M, ..., fn & M)] with
    [M = 2 ^ (ChunkCount * LutBits) - 1]. *)
Theorem Encode_ignores_high_bits c this field0 fields :
  valid_config c = true ->
  construct c = Some this ->
  Encode c this field0 fields =
  Encode c this
    (Z.land field0 (2 ^ (ChunkCount c * LutBits c) - 1))
    (map (fun f => Z.land f (2 ^ (ChunkCount c * LutBits c) - 1)) fields).
Proof.
  intros Hv Hc. apply valid_config_facts in Hv. apply construct_table in Hc.
  replace (2 ^ (ChunkCount c * LutBits c) - 1) with (Z.ones (ChunkCount c * LutBits c))
    by (rewrite Z.ones_equiv; lia).
  unfold Encode. rewrite length_map.
  destruct (is_integral (T c)); [|reflexivity]. cbn [andb].
  destruct (Z.eqb_spec (Z.of_nat (length fields)) (to_size_t (Dimensions c - 1)))
    as [E|]; [|reflexivity].
  f_equal. apply EncodeInternal_masked; try assumption.
  destruct Hv. rewrite to_size_t_small in E by lia. cbn [length]. lia.
Qed.

Lemma Encode_ignores_high_bits_witness :
  Encode cfg_3_10_4 (built cfg_3_10_4) 4294967295 [70000; 5000] =
  Encode cfg_3_10_4 (built cfg_3_10_4)
    (Z.land 4294967295 (2 ^ (ChunkCount cfg_3_10_4 * LutBits cfg_3_10_4) - 1))
    (map (fun f => Z.land f (2 ^ (ChunkCount cfg_3_10_4 * LutBits cfg_3_10_4) - 1))
         [70000; 5000]).
Proof.
  apply (Encode_ignores_high_bits cfg_3_10_4 (built cfg_3_10_4)); reflexivity.
Defined.

(** C10. For every valid configuration and every table index
    [i < 2 ^ LutBits], [SplitByN<LutBits>(i, Dimensions)] is below
    [2 ^ ((LutBits - 1) * Dimensions + 1)], hence fits in
    [Dimensions * LutBits] bits; [LutValue] has at least that many bits, and
    storing the value in a [LutValue] slot loses nothing. *)
Theorem SplitByN_fits_LutValue c i :
  valid_config c = true ->
  0 <= i < 2 ^ LutBits c ->
  0 <= mortonnd.SplitByN (Z.to_nat (LutBits c)) i (Dimensions c)
    < 2 ^ ((LutBits c - 1) * Dimensions c + 1)
  /\ mortonnd.SplitByN (Z.to_nat (LutBits c)) i (Dimensions c)
     < 2 ^ (Dimensions c * LutBits c)
  /\ mortonnd.SplitByN (Z.to_nat (LutBits c)) i (Dimensions c)
       mod 2 ^ (Dimensions c * LutBits c)
     = mortonnd.SplitByN (Z.to_nat (LutBits c)) i (Dimensions c)
  /\ Dimensions c * LutBits c <= digits (LutValue c)
  /\ SplitByN c i = mortonnd.SplitByN (Z.to_nat (LutBits c)) i (Dimensions c).
Proof.
  intros Hv Hi. apply valid_config_facts in Hv.
  pose proof (SplitByN_LutBits_bound c i Hv) as B.
  pose proof Hv as [].
  assert (Hlt : mortonnd.SplitByN (Z.to_nat (LutBits c)) i (Dimensions c)
                < 2 ^ (Dimensions c * LutBits c)).
  { eapply Z.lt_le_trans; [apply B|]. apply Z.pow_le_mono_r; nia. }
  split; [assumption|]. split; [assumption|]. split; [|split].
  - apply Z.mod_small. lia.
  - unfold LutValue. rewrite (LutValueWidth_exact c Hv).
    pose proof (MinInt_digits (LutBits c * Dimensions c) ltac:(lia)). lia.
  - now apply SplitByN_LutValue_exact.
Qed.

Lemma SplitByN_fits_LutValue_witness :
  0 <= mortonnd.SplitByN (Z.to_nat 11) 2047 3 < 2 ^ ((11 - 1) * 3 + 1)
  /\ mortonnd.SplitByN (Z.to_nat 11) 2047 3 < 2 ^ (3 * 11)
  /\ mortonnd.SplitByN (Z.to_nat 11) 2047 3 mod 2 ^ (3 * 11)
     = mortonnd.SplitByN (Z.to_nat 11) 2047 3
  /\ 3 * 11 <= digits (LutValue MortonNDLutEncoder_3D_64)
  /\ SplitByN MortonNDLutEncoder_3D_64 2047 = mortonnd.SplitByN (Z.to_nat 11) 2047 3.
Proof.
  apply (SplitByN_fits_LutValue MortonNDLutEncoder_3D_64 2047);
    [reflexivity | simpl; lia].
Defined.

(** * Further properties of the encoder *)

(** X3. Every table read of a constructed encoder is inside the table: for
    any field value, the index [field & ChunkMask] is below the table's
    length. *)
Theorem LookupTable_index_in_bounds c this field :
  valid_config c = true ->
  construct c = Some this ->
  0 <= Z.land field (ChunkMask c) < Z.of_nat (length (LookupTable this)).
Proof.
  intros Hv Hc. apply valid_config_facts in Hv. apply construct_table in Hc.
  pose proof (ChunkMask_index c field Hv) as Hi.
  rewrite Hc. unfold BuildLut.
  rewrite length_map, make_index_sequence_length. lia.
Qed.

Lemma LookupTable_index_in_bounds_witness :
  0 <= Z.land 123456789 (ChunkMask (cfg_2_16 8))
    < Z.of_nat (length (LookupTable (built (cfg_2_16 8)))).
Proof.
  apply (LookupTable_index_in_bounds (cfg_2_16 8) (built (cfg_2_16 8)) 123456789);
    reflexivity.
Defined.

(** X4. Zero-field identity: for every valid configuration,
    [Encode(0, ..., 0)] is 0. *)
Theorem Encode_zero c this :
  valid_config c = true ->
  construct c = Some this ->
  Encode c this 0 (repeat 0 (Z.to_nat (Dimensions c - 1))) = Some 0.
Proof.
  intros Hv Hc. apply valid_config_facts in Hv. apply construct_table in Hc.
  pose proof Hv as [].
  assert (Hlen : Z.of_nat (length (0 :: repeat 0 (Z.to_nat (Dimensions c - 1))))
                 = Dimensions c).
  { cbn [length]. rewrite repeat_length. lia. }
  rewrite Encode_defined by assumption. f_equal.
  apply Z.bits_inj'. intros p Hp.
  rewrite EncodeInternal_clean; try assumption.
  - change (0 :: repeat 0 (Z.to_nat (Dimensions c - 1)))
      with (repeat 0 (S (Z.to_nat (Dimensions c - 1)))).
    rewrite nth_repeat, !Z.bits_0. apply andb_false_r.
  - change (0 :: repeat 0 (Z.to_nat (Dimensions c - 1)))
      with (repeat 0 (S (Z.to_nat (Dimensions c - 1)))).
    apply Forall_forall. intros x Hx. apply repeat_spec in Hx. subst x.
    unfold fits. pose proof (Z.pow_pos_nonneg 2 (FieldBits c) ltac:(lia) ltac:(lia)).
    lia.
Qed.

Lemma Encode_zero_witness :
  Encode cfg_3_10_4 (built cfg_3_10_4) 0 (repeat 0 (Z.to_nat (3 - 1))) = Some 0.
Proof.
  apply (Encode_zero cfg_3_10_4 (built cfg_3_10_4)); reflexivity.
Defined.

(** X5. Single-bit locality: with only bit [b] of field [k] set and every
    other field 0, [Encode] sets bit [k + Dimensions * b] and no other. *)
Theorem Encode_single_bit c this field0 fields k b :
  valid_config c = true ->
  construct c = Some this ->
  Z.of_nat (length (field0 :: fields)) = Dimensions c ->
  0 <= k < Dimensions c -> 0 <= b < FieldBits c ->
  (forall j, 0 <= j < Dimensions c ->
     nth (Z.to_nat j) (field0 :: fields) 0 = if j =? k then 2 ^ b else 0) ->
  Encode c this field0 fields = Some (2 ^ (k + Dimensions c * b)).
Proof.
  intros Hv Hc Hlen Hk Hb Hone.
  apply valid_config_facts in Hv. apply construct_table in Hc.
  pose proof Hv as [].
  assert (Hfit : Forall (fits (FieldBits c)) (field0 :: fields)).
  { apply Forall_nth. intros i d Hi.
    rewrite (nth_indep _ d 0) by assumption.
    replace i with (Z.to_nat (Z.of_nat i)) by lia.
    rewrite Hone by lia. unfold fits.
    pose proof (Z.pow_pos_nonneg 2 (FieldBits c) ltac:(lia) ltac:(lia)).
    destruct (Z.of_nat i =? k); [|lia].
    split; [apply Z.pow_nonneg; lia | apply Z.pow_lt_mono_r; lia]. }
  rewrite Encode_defined by assumption. f_equal.
  apply Z.bits_inj'. intros p Hp.
  rewrite EncodeInternal_clean by assumption.
  pose proof (Z.mod_pos_bound p (Dimensions c) ltac:(lia)) as B.
  pose proof (Z.div_mod p (Dimensions c) ltac:(lia)) as E.
  pose proof (Z.div_pos p (Dimensions c) Hp ltac:(lia)) as Q.
  rewrite Hone by assumption.
  rewrite (Z.pow2_bits_eqb (k + Dimensions c * b)) by nia.
  destruct (Z.eqb_spec (p mod Dimensions c) k) as [Hm|Hm].
  - rewrite Z.pow2_bits_eqb by lia.
    destruct (Z.eqb_spec b (p / Dimensions c)) as [Hq|Hq].
    + destruct (Z.ltb_spec (p / Dimensions c) (FieldBits c)); [|lia].
      symmetry. apply Z.eqb_eq. nia.
    + rewrite andb_false_r. symmetry. apply Z.eqb_neq. intros Hp'.
      apply Hq. subst p.
      destruct (group_position (Dimensions c) k b ltac:(lia) Hk) as [_ ->].
      reflexivity.
  - rewrite Z.bits_0, andb_false_r. symmetry. apply Z.eqb_neq. intros Hp'.
    apply Hm. subst p.
    now destruct (group_position (Dimensions c) k b ltac:(lia) Hk) as [-> _].
Qed.

Lemma Encode_single_bit_witness :
  Encode cfg_3_10_4 (built cfg_3_10_4) 0 [2 ^ 7; 0] = Some (2 ^ (1 + 3 * 7)).
Proof.
  apply (Encode_single_bit cfg_3_10_4 (built cfg_3_10_4) 0 [2 ^ 7; 0] 1 7);
    try reflexivity; try (simpl; lia).
  intros j Hj. simpl in Hj.
  assert (Hcases : j = 0 \/ j = 1 \/ j = 2) by lia.
  destruct Hcases as [->|[->| ->]]; reflexivity.
Defined.

(** X6. The four preset configurations are valid, the constructor accepts
    them, and they use 2, 3, 1 and 2 lookups per field. *)
Theorem presets_valid :
  Forall (fun c => valid_config c = true /\ static_asserts c = true)
         [MortonNDLutEncoder_2D_32; MortonNDLutEncoder_2D_64;
          MortonNDLutEncoder_3D_32; MortonNDLutEncoder_3D_64]
  /\ map ChunkCount [MortonNDLutEncoder_2D_32; MortonNDLutEncoder_2D_64;
                     MortonNDLutEncoder_3D_32; MortonNDLutEncoder_3D_64]
     = [2; 3; 1; 2].
Proof. split; [repeat constructor | reflexivity]. Qed.

(** * More on the bit spreader *)

Lemma SplitByN_testbit_wrap n x s p :
  (1 <= n)%nat -> 1 <= s -> 0 <= p ->
  Z.testbit (mortonnd.SplitByN n x s) p =
  (p <? 64) && (p mod s =? 0) && (p / s <? Z.of_nat n) && Z.testbit x (p / s).
Proof.
  intros Hn Hs. revert x p.
  induction n as [|n IH]; [lia|]. clear Hn.
  intros x p Hp.
  pose proof (Z.div_mod p s ltac:(lia)) as E.
  pose proof (Z.mod_pos_bound p s ltac:(lia)) as B.
  pose proof (Z.div_pos p s Hp ltac:(lia)) as Q.
  destruct n as [|n].
  - simpl mortonnd.SplitByN. rewrite Z.land_spec, testbit_1 by assumption.
    change (Z.of_nat 1) with 1.
    rewrite <- (andb_assoc (p <? 64)), group_zero by assumption.
    destruct (Z.eqb_spec p 0) as [->|].
    + rewrite Z.div_0_l by lia. cbn [andb]. now rewrite andb_true_r.
    + now rewrite !andb_false_r.
  - rewrite SplitByN_step, Z.lor_spec, to_size_t_testbit, Z.land_spec, testbit_1
      by assumption.
    destruct (Z.ltb_spec p s) as [Hlt|Hge].
    + rewrite Z.shiftl_spec_low by assumption.
      rewrite andb_false_r, orb_false_l.
      rewrite Z.div_small by lia.
      destruct (Z.eqb_spec p 0) as [->|Hne].
      * rewrite Z.mod_0_l by lia. cbn. now rewrite andb_true_r.
      * rewrite Z.mod_small by lia.
        destruct (Z.eqb_spec p 0); [lia|]. now rewrite !andb_false_r.
    + rewrite Z.shiftl_spec by assumption.
      rewrite IH by lia.
      destruct (group_shift s p Hs Hge) as [-> ->].
      rewrite Z.shiftr_spec by lia.
      replace (p / s - 1 + 1) with (p / s) by lia.
      destruct (Z.eqb_spec p 0); [lia|]. rewrite andb_false_r, orb_false_r.
      destruct (Z.ltb_spec p 64); [|reflexivity].
      destruct (Z.ltb_spec (p - s) 64); [|lia]. cbn [andb].
      destruct (Z.eqb_spec (p mod s) 0) as [Hm|]; [|reflexivity]. cbn [andb].
      destruct (Z.ltb_spec (p / s - 1) (Z.of_nat (S n))),
               (Z.ltb_spec (p / s) (Z.of_nat (S (S n))));
        (reflexivity || lia).
Qed.

(** X8. [SplitByN<n>(x, s)], for any [x] (also one with more than [n] bits)
    and any stride [1 <= s < 64], is the spread of the low [n] bits of [x]
    cut to the 64 bits of [std::size_t]: bit [p] of the result is set
    exactly when [p < 64], [p = j * s] for a [j < n], and bit [j] of [x] is
    set.  So bits of [x] from [n] upward are ignored, and spread bits that
    would land at 64 or above are dropped. *)
Theorem SplitByN_bits n x s :
  (1 <= n)%nat -> 1 <= s < 64 ->
  (forall p, 0 <= p ->
     Z.testbit (mortonnd.SplitByN n x s) p =
     (p <? 64) && (p mod s =? 0) && (p / s <? Z.of_nat n) && Z.testbit x (p / s))
  /\ mortonnd.SplitByN n (x mod 2 ^ Z.of_nat n) s = mortonnd.SplitByN n x s
  /\ 0 <= mortonnd.SplitByN n x s < 2 ^ 64.
Proof.
  intros Hn Hs. split; [|split].
  - intros p Hp. apply SplitByN_testbit_wrap; lia.
  - apply Z.bits_inj'. intros p Hp.
    rewrite !SplitByN_testbit_wrap by lia.
    destruct (Z.ltb_spec (p / s) (Z.of_nat n)); [|now rewrite !andb_false_r].
    now rewrite Z.mod_pow2_bits_low by assumption.
  - split; [apply SplitByN_nonneg|].
    apply bits_above_bound; [lia | apply SplitByN_nonneg |].
    intros p Hp. rewrite SplitByN_testbit_wrap by lia.
    destruct (Z.ltb_spec p 64); [lia|reflexivity].
Qed.

Lemma SplitByN_bits_witness :
  (forall p, 0 <= p ->
     Z.testbit (mortonnd.SplitByN 3 12 32) p =
     (p <? 64) && (p mod 32 =? 0) && (p / 32 <? Z.of_nat 3) && Z.testbit 12 (p / 32))
  /\ mortonnd.SplitByN 3 (12 mod 2 ^ Z.of_nat 3) 32 = mortonnd.SplitByN 3 12 32
  /\ 0 <= mortonnd.SplitByN 3 12 32 < 2 ^ 64.
Proof. apply (SplitByN_bits 3 12 32); lia. Defined.

(** X9. [pow(base, exp)] is [base ^ exp] modulo [2 ^ 64]: the product wraps
    in [std::size_t]; in particular [pow(2, exp)] is [2 ^ exp] for
    [exp < 64] and 0 from 64 on. *)
Theorem pow_wraps base exp :
  0 <= base ->
  pow base exp = (base ^ Z.of_nat exp) mod 2 ^ 64
  /\ ((exp < 64)%nat -> pow 2 exp = 2 ^ Z.of_nat exp)
  /\ ((64 <= exp)%nat -> pow 2 exp = 0).
Proof.
  intros Hb.
  assert (G : forall b e, pow b e = (b ^ Z.of_nat e) mod 2 ^ 64).
  { intros b e. induction e as [|e IH]; [reflexivity|].
    cbn [pow]. rewrite IH. unfold to_size_t, to_unsigned, size_t_digits.
    rewrite Z.mul_mod_idemp_r by lia.
    now rewrite Nat2Z.inj_succ, Z.pow_succ_r by lia. }
  split; [apply G|]. split; intros He; rewrite G.
  - apply Z.mod_small. split; [apply Z.pow_nonneg; lia|].
    apply Z.pow_lt_mono_r; lia.
  - replace (Z.of_nat exp) with (64 + (Z.of_nat exp - 64)) by lia.
    rewrite Z.pow_add_r by lia.
    rewrite Z.mul_comm. apply Z.mod_mul. lia.
Qed.

Lemma pow_wraps_witness :
  pow 3 41 = (3 ^ Z.of_nat 41) mod 2 ^ 64
  /\ ((41 < 64)%nat -> pow 2 41 = 2 ^ Z.of_nat 41)
  /\ ((64 <= 41)%nat -> pow 2 41 = 0).
Proof. apply (pow_wraps 3 41). lia. Defined.

(** * More on [Encode] *)

Lemma zip_with_cons op f fs g gs :
  zip_with op (f :: fs) (g :: gs) = op f g :: zip_with op fs gs.
Proof. reflexivity. Qed.

Lemma zip_with_length op fs gs :
  length fs = length gs -> length (zip_with op fs gs) = length fs.
Proof.
  intros H. unfold zip_with. rewrite length_map, length_combine, H.
  apply Nat.min_id.
Qed.

Lemma zip_with_nth op fs gs i :
  length fs = length gs -> op 0 0 = 0 ->
  nth i (zip_with op fs gs) 0 = op (nth i fs 0) (nth i gs 0).
Proof.
  intros Hlen H0. unfold zip_with.
  pose proof (map_nth (fun fg => op (fst fg) (snd fg)) (combine fs gs) (0, 0) i) as E.
  cbn [fst snd] in E. rewrite H0 in E. rewrite E.
  now rewrite combine_nth by assumption.
Qed.

Lemma EncodeInternal_zip_with op bop c this f0 fs g0 gs :
  (forall a b p, 0 <= p -> Z.testbit (op a b) p = bop (Z.testbit a p) (Z.testbit b p)) ->
  (forall x, bop false false = false /\ bop x false = x /\ bop false x = x
             \/ bop false false = false /\ bop x false = false /\ bop false x = false) ->
  op 0 0 = 0 ->
  config_facts c -> table_built c this ->
  Z.of_nat (length (f0 :: fs)) = Dimensions c ->
  Z.of_nat (length (g0 :: gs)) = Dimensions c ->
  EncodeInternal c this (op f0 g0) (zip_with op fs gs) =
  op (EncodeInternal c this f0 fs) (EncodeInternal c this g0 gs).
Proof.
  intros Hop Hbop H0 Hf Ht Hlf Hlg.
  assert (Hlen : length fs = length gs) by (cbn [length] in *; lia).
  apply Z.bits_inj'. intros p Hp.
  rewrite Hop by assumption.
  rewrite !EncodeInternal_testbit
    by (assumption || (cbn [length] in *; rewrite ?zip_with_length by assumption; lia)).
  rewrite <- zip_with_cons.
  rewrite zip_with_nth by (cbn [length]; congruence || assumption).
  rewrite Hop by (apply Z.div_pos; destruct Hf; lia).
  rewrite zip_with_length by (cbn [length]; congruence).
  replace (length (g0 :: gs)) with (length (f0 :: fs)) by (cbn [length]; congruence).
  set (A := (p <? digits (T c))
            && (p mod Dimensions c <? Z.of_nat (length (f0 :: fs)))
            && (p / Dimensions c <? ChunkCount c * LutBits c)).
  set (x := Z.testbit (nth (Z.to_nat (p mod Dimensions c)) (f0 :: fs) 0) (p / Dimensions c)).
  set (y := Z.testbit (nth (Z.to_nat (p mod Dimensions c)) (g0 :: gs) 0) (p / Dimensions c)).
  destruct A; cbn [andb]; [reflexivity|].
  destruct (Hbop false) as [[E _]|[E _]]; now rewrite E.
Qed.

(** X10. [Encode] works bit by bit, for arbitrary inputs: encoding the
    field-wise OR (AND, XOR) of two tuples gives the OR (AND, XOR) of their
    codes. *)
Theorem Encode_bitwise c this f0 fs g0 gs :
  valid_config c = true ->
  construct c = Some this ->
  Z.of_nat (length (f0 :: fs)) = Dimensions c ->
  Z.of_nat (length (g0 :: gs)) = Dimensions c ->
  exists r s,
    Encode c this f0 fs = Some r /\ Encode c this g0 gs = Some s
    /\ Encode c this (Z.lor f0 g0) (zip_with Z.lor fs gs) = Some (Z.lor r s)
    /\ Encode c this (Z.land f0 g0) (zip_with Z.land fs gs) = Some (Z.land r s)
    /\ Encode c this (Z.lxor f0 g0) (zip_with Z.lxor fs gs) = Some (Z.lxor r s).
Proof.
  intros Hv Hc Hlf Hlg.
  apply valid_config_facts in Hv. apply construct_table in Hc.
  assert (Hlen : length fs = length gs) by (cbn [length] in *; lia).
  assert (Hz : forall op, Z.of_nat (length (op f0 g0 :: zip_with op fs gs)) = Dimensions c).
  { intros op. cbn [length] in *. rewrite zip_with_length by assumption. lia. }
  exists (EncodeInternal c this f0 fs), (EncodeInternal c this g0 gs).
  rewrite !Encode_defined by (assumption || apply Hz).
  repeat split; f_equal.
  - apply (EncodeInternal_zip_with Z.lor orb); try assumption.
    + intros. apply Z.lor_spec.
    + intros x. left. destruct x; repeat split.
    + reflexivity.
  - apply (EncodeInternal_zip_with Z.land andb); try assumption.
    + intros. apply Z.land_spec.
    + intros x. right. destruct x; repeat split.
    + reflexivity.
  - apply (EncodeInternal_zip_with Z.lxor xorb); try assumption.
    + intros. apply Z.lxor_spec.
    + intros x. left. destruct x; repeat split.
    + reflexivity.
Qed.

Lemma Encode_bitwise_witness :
  exists r s,
    Encode cfg_3_10_4 (built cfg_3_10_4) 1000 [513; 77] = Some r
    /\ Encode cfg_3_10_4 (built cfg_3_10_4) 99999 [3; 1023] = Some s
    /\ Encode cfg_3_10_4 (built cfg_3_10_4) (Z.lor 1000 99999)
         (zip_with Z.lor [513; 77] [3; 1023]) = Some (Z.lor r s)
    /\ Encode cfg_3_10_4 (built cfg_3_10_4) (Z.land 1000 99999)
         (zip_with Z.land [513; 77] [3; 1023]) = Some (Z.land r s)
    /\ Encode cfg_3_10_4 (built cfg_3_10_4) (Z.lxor 1000 99999)
         (zip_with Z.lxor [513; 77] [3; 1023]) = Some (Z.lxor r s).
Proof.
  apply (Encode_bitwise cfg_3_10_4 (built cfg_3_10_4) 1000 [513; 77] 99999 [3; 1023]);
    reflexivity.
Defined.

(** X11. [Encode] is injective on in-range tuples: two tuples of
    [Dimensions] fields, each field within [FieldBits] bits, that encode to
    the same value are the same tuple. *)
Theorem Encode_injective c this f0 fs g0 gs :
  valid_config c = true ->
  construct c = Some this ->
  Z.of_nat (length (f0 :: fs)) = Dimensions c ->
  Z.of_nat (length (g0 :: gs)) = Dimensions c ->
  Forall (fits (FieldBits c)) (f0 :: fs) ->
  Forall (fits (FieldBits c)) (g0 :: gs) ->
  Encode c this f0 fs = Encode c this g0 gs ->
  f0 :: fs = g0 :: gs.
Proof.
  intros Hv Hc Hlf Hlg Hff Hfg Heq.
  apply valid_config_facts in Hv. apply construct_table in Hc.
  rewrite !Encode_defined in Heq by assumption. injection Heq as Heq.
  pose proof (EncodeInternal_interleaved c this f0 fs Hv Hc Hlf Hff) as [If _].
  pose proof (EncodeInternal_interleaved c this g0 gs Hv Hc Hlg Hfg) as [Ig _].
  pose proof Hv as [].
  apply (nth_ext _ _ 0 0); [lia|].
  intros n Hn. apply Z.bits_inj'. intros b Hb.
  destruct (Z.ltb_spec b (FieldBits c)) as [Hlt|Hge].
  - specialize (If (Z.of_nat n) b ltac:(lia) ltac:(lia)).
    specialize (Ig (Z.of_nat n) b ltac:(lia) ltac:(lia)).
    rewrite Nat2Z.id in If, Ig. congruence.
  - rewrite !(testbit_above _ (FieldBits c)); try lia; try reflexivity;
      apply fits_nth; (lia || assumption).
Qed.

Lemma Encode_injective_witness : [1000; 513; 77] = [1000; 513; 77].
Proof.
  apply (Encode_injective cfg_3_10_4 (built cfg_3_10_4) 1000 [513; 77] 1000 [513; 77]);
    try reflexivity; repeat constructor; unfold fits; simpl; lia.
Defined.

(** ** Inputs that break the contract *)

Lemma naive_interleave_low_bits D F fields :
  1 <= D -> 0 <= F -> Z.of_nat (length fields) = D ->
  naive_interleave D F (map (fun f => f mod 2 ^ F) fields) = naive_interleave D F fields.
Proof.
  intros HD HF Hlen. apply Z.bits_inj'. intros p Hp.
  rewrite !naive_interleave_testbit by (rewrite ?length_map; assumption).
  destruct (Z.ltb_spec (p / D) F); [|reflexivity]. cbn [andb].
  pose proof (map_nth (fun f => f mod 2 ^ F) fields 0 (Z.to_nat (p mod D))) as E.
  cbn beta in E. rewrite Z.mod_0_l in E by (apply Z.pow_nonzero; lia).
  rewrite E. now apply Z.mod_pow2_bits_low.
Qed.

(** X12. What [Encode] does with any input, clean or dirty: the result is
    the interleave of the low [ChunkCount * LutBits] bits of each field (not
    of the low [FieldBits] bits), cut to the width of [T]. *)
Theorem Encode_any_input c this field0 fields :
  valid_config c = true ->
  construct c = Some this ->
  Z.of_nat (length (field0 :: fields)) = Dimensions c ->
  Encode c this field0 fields =
  Some (naive_interleave (Dimensions c) (ChunkCount c * LutBits c) (field0 :: fields)
        mod 2 ^ digits (T c)).
Proof.
  intros Hv Hc Hlen.
  apply valid_config_facts in Hv. apply construct_table in Hc.
  rewrite Encode_defined by assumption. f_equal.
  now apply EncodeInternal_any.
Qed.

Lemma Encode_any_input_witness :
  Encode cfg_3_10_4 (built cfg_3_10_4) 4294967295 [70000; 5000] =
  Some (naive_interleave 3 (ChunkCount cfg_3_10_4 * 4) [4294967295; 70000; 5000]
        mod 2 ^ 32).
Proof.
  apply (Encode_any_input cfg_3_10_4 (built cfg_3_10_4) 4294967295 [70000; 5000]);
    reflexivity.
Defined.

Lemma interleave_bits_nonneg D k field n :
  0 <= k -> 0 <= D -> 0 <= interleave_bits D k field n.
Proof.
  intros Hk HD. induction n as [|n IH]; [simpl; lia|].
  cbn [interleave_bits]. apply Z.lor_nonneg. split; [assumption|].
  apply Z.shiftl_nonneg. destruct (Z.testbit field (Z.of_nat n)); simpl; lia.
Qed.

Lemma interleave_from_nonneg D F fields k :
  0 <= k -> 0 <= D -> 0 <= interleave_from D F k fields.
Proof.
  intros Hk HD. revert k Hk.
  induction fields as [|f rest IH]; intros k Hk; [simpl; lia|].
  cbn [interleave_from]. apply Z.lor_nonneg. split.
  - now apply interleave_bits_nonneg.
  - apply IH. lia.
Qed.

Lemma naive_interleave_range D F fields :
  1 <= D -> 0 <= F -> Z.of_nat (length fields) = D ->
  0 <= naive_interleave D F fields < 2 ^ (D * F).
Proof.
  intros HD HF Hlen.
  assert (Hnn : 0 <= naive_interleave D F fields)
    by (apply interleave_from_nonneg; lia).
  split; [assumption|].
  apply bits_above_bound; [nia | assumption |].
  intros p Hp. rewrite naive_interleave_testbit by (assumption || nia).
  assert (F <= p / D) by (apply div_ge_iff; lia).
  destruct (Z.ltb_spec (p / D) F); [lia|reflexivity].
Qed.

Lemma EncodeInternal_divisible c this field0 fields :
  config_facts c -> table_built c this ->
  Z.of_nat (length (field0 :: fields)) = Dimensions c ->
  ChunkCount c * LutBits c = FieldBits c ->
  EncodeInternal c this field0 fields =
  naive_interleave (Dimensions c) (FieldBits c) (field0 :: fields).
Proof.
  intros Hf Ht Hlen HCC. pose proof Hf as [].
  rewrite EncodeInternal_any, HCC by assumption.
  apply to_unsigned_small.
  pose proof (naive_interleave_range (Dimensions c) (FieldBits c) (field0 :: fields)
                ltac:(lia) ltac:(lia) Hlen) as R.
  split; [lia|]. eapply Z.lt_le_trans; [apply R|].
  apply Z.pow_le_mono_r; lia.
Qed.

(** X13. When [LutBits] divides [FieldBits] the chunk masks clean the input:
    for arbitrary fields [Encode] returns the interleave of the low
    [FieldBits] bits of each field, the same value as for the fields
    reduced modulo [2 ^ FieldBits]. *)
Theorem Encode_sanitizes_when_divisible c this field0 fields :
  valid_config c = true ->
  construct c = Some this ->
  Z.of_nat (length (field0 :: fields)) = Dimensions c ->
  (LutBits c | FieldBits c) ->
  Encode c this field0 fields =
  Some (naive_interleave (Dimensions c) (FieldBits c) (field0 :: fields))
  /\ Encode c this field0 fields =
     Encode c this (field0 mod 2 ^ FieldBits c)
       (map (fun f => f mod 2 ^ FieldBits c) fields).
Proof.
  intros Hv Hc Hlen [q Hq].
  apply valid_config_facts in Hv. apply construct_table in Hc.
  pose proof Hv as [].
  assert (HCC : ChunkCount c * LutBits c = FieldBits c).
  { pose proof (ChunkCount_covers c ltac:(lia) ltac:(lia)).
    assert (q <= ChunkCount c) by nia.
    assert (ChunkCount c - 1 < q) by nia.
    replace (ChunkCount c) with q by lia. lia. }
  assert (Hlen' : Z.of_nat (length (field0 mod 2 ^ FieldBits c
                                    :: map (fun f => f mod 2 ^ FieldBits c) fields))
                  = Dimensions c).
  { cbn [length] in *. now rewrite length_map. }
  rewrite !Encode_defined by assumption.
  rewrite !EncodeInternal_divisible by assumption.
  split; [reflexivity|]. f_equal. symmetry.
  apply (naive_interleave_low_bits (Dimensions c) (FieldBits c) (field0 :: fields));
    (lia || assumption).
Qed.

Lemma Encode_sanitizes_when_divisible_witness :
  Encode (cfg_2_16 8) (built (cfg_2_16 8)) 4294967295 [305419896] =
  Some (naive_interleave 2 16 [4294967295; 305419896])
  /\ Encode (cfg_2_16 8) (built (cfg_2_16 8)) 4294967295 [305419896] =
     Encode (cfg_2_16 8) (built (cfg_2_16 8)) (4294967295 mod 2 ^ 16)
       (map (fun f => f mod 2 ^ 16) [305419896]).
Proof.
  apply (Encode_sanitizes_when_divisible (cfg_2_16 8) (built (cfg_2_16 8))
           4294967295 [305419896]); try reflexivity.
  exists 2. reflexivity.
Defined.

(** X14. When [LutBits] does not divide [FieldBits] the last chunk reaches
    beyond [FieldBits], and a dirty bit there shows in the result: with bit
    [FieldBits] of the first field set and everything else 0, [Encode]
    returns [2 ^ (Dimensions * FieldBits)] cut to [T], a bit outside the
    [Dimensions * FieldBits] bits of every clean result (and 0 when [T] has no
    such bit). *)
Theorem Encode_dirty_bit_leaks c this :
  valid_config c = true ->
  construct c = Some this ->
  ~ (LutBits c | FieldBits c) ->
  Encode c this (2 ^ FieldBits c) (repeat 0 (Z.to_nat (Dimensions c - 1))) =
  Some (if Dimensions c * FieldBits c <? digits (T c)
        then 2 ^ (Dimensions c * FieldBits c) else 0).
Proof.
  intros Hv Hc Hnd.
  apply valid_config_facts in Hv. apply construct_table in Hc.
  pose proof Hv as [].
  pose proof (ChunkCount_covers c ltac:(lia) ltac:(lia)) as Hcov.
  assert (Hlt : FieldBits c < ChunkCount c * LutBits c).
  { destruct (Z.eq_dec (FieldBits c) (ChunkCount c * LutBits c)) as [E|]; [|lia].
    exfalso. apply Hnd. exists (ChunkCount c). exact E. }
  assert (Hlen : Z.of_nat (length (2 ^ FieldBits c
                                   :: repeat 0 (Z.to_nat (Dimensions c - 1))))
                 = Dimensions c).
  { cbn [length]. rewrite repeat_length. lia. }
  rewrite Encode_defined by assumption. f_equal.
  apply Z.bits_inj'. intros p Hp.
  rewrite EncodeInternal_testbit by (assumption || lia).
  rewrite Hlen.
  pose proof (Z.mod_pos_bound p (Dimensions c) ltac:(lia)) as B.
  pose proof (Z.div_mod p (Dimensions c) ltac:(lia)) as E.
  pose proof (Z.div_pos p (Dimensions c) Hp ltac:(lia)) as Q.
  destruct (Z.ltb_spec (p mod Dimensions c) (Dimensions c)); [|lia].
  rewrite andb_true_r.
  assert (Hnth : nth (Z.to_nat (p mod Dimensions c))
                     (2 ^ FieldBits c :: repeat 0 (Z.to_nat (Dimensions c - 1))) 0
                 = if p mod Dimensions c =? 0 then 2 ^ FieldBits c else 0).
  { destruct (Z.eqb_spec (p mod Dimensions c) 0) as [->|Hm]; [reflexivity|].
    replace (Z.to_nat (p mod Dimensions c))
      with (S (Z.to_nat (p mod Dimensions c - 1))) by lia.
    cbn [nth]. apply nth_repeat. }
  rewrite Hnth.
  assert (Hrhs : Z.testbit (if Dimensions c * FieldBits c <? digits (T c)
                            then 2 ^ (Dimensions c * FieldBits c) else 0) p
                 = (p <? digits (T c)) && (p =? Dimensions c * FieldBits c)).
  { destruct (Z.ltb_spec (Dimensions c * FieldBits c) (digits (T c))).
    - rewrite Z.pow2_bits_eqb by nia.
      destruct (Z.eqb_spec (Dimensions c * FieldBits c) p),
               (Z.eqb_spec p (Dimensions c * FieldBits c)),
               (Z.ltb_spec p (digits (T c))); (reflexivity || lia).
    - rewrite Z.bits_0.
      destruct (Z.eqb_spec p (Dimensions c * FieldBits c)),
               (Z.ltb_spec p (digits (T c))); (reflexivity || lia). }
  rewrite Hrhs.
  destruct (Z.ltb_spec p (digits (T c))); [|reflexivity]. cbn [andb].
  destruct (Z.eqb_spec (p mod Dimensions c) 0) as [Hm|Hm].
  - rewrite Z.pow2_bits_eqb by lia.
    destruct (Z.eqb_spec (FieldBits c) (p / Dimensions c)) as [Hq|Hq].
    + destruct (Z.ltb_spec (p / Dimensions c) (ChunkCount c * LutBits c)); [|lia].
      symmetry. apply Z.eqb_eq. nia.
    + rewrite andb_false_r. symmetry. apply Z.eqb_neq. nia.
  - rewrite Z.bits_0, andb_false_r. symmetry. apply Z.eqb_neq.
    intros ->. apply Hm. rewrite Z.mul_comm. apply Z.mod_mul. lia.
Qed.

Lemma Encode_dirty_bit_leaks_witness :
  Encode cfg_3_10_4 (built cfg_3_10_4) (2 ^ 10) (repeat 0 (Z.to_nat (3 - 1))) =
  Some (if 3 * 10 <? 32 then 2 ^ (3 * 10) else 0).
Proof.
  apply (Encode_dirty_bit_leaks cfg_3_10_4 (built cfg_3_10_4));
    try reflexivity.
  intros [q Hq]. simpl in Hq. lia.
Defined.

(** X15. Sanitising with the mask, for a [T] at least as wide as
    [unsigned int]: whatever the fields hold, masking each with
    [InputMask()] before [Encode] gives the interleave of their low
    [FieldBits] bits. *)
Theorem Encode_after_InputMask c this field0 fields :
  valid_config c = true ->
  construct c = Some this ->
  int_digits < digits (T c) < 2 ^ int_digits ->
  Z.of_nat (length (field0 :: fields)) = Dimensions c ->
  exists m,
    InputMask c = Some m
    /\ Encode c this (Z.land field0 m) (map (fun f => Z.land f m) fields) =
       Some (naive_interleave (Dimensions c) (FieldBits c) (field0 :: fields)).
Proof.
  intros Hv Hc Hw Hlen.
  exists (Z.shiftl 1 (FieldBits c) - 1).
  split; [now apply InputMask_not_promoted|].
  apply valid_config_facts in Hv. apply construct_table in Hc.
  pose proof Hv as [].
  change (Z.shiftl 1 (FieldBits c) - 1) with (Z.ones (FieldBits c)).
  set (g := fun f => Z.land f (Z.ones (FieldBits c))).
  change (Z.land field0 (Z.ones (FieldBits c))) with (g field0).
  assert (Hg : forall f, g f = f mod 2 ^ FieldBits c).
  { intros f. unfold g. apply Z.land_ones. lia. }
  assert (Hlen' : Z.of_nat (length (g field0 :: map g fields)) = Dimensions c).
  { cbn [length] in *. now rewrite length_map. }
  assert (Hfit : Forall (fits (FieldBits c)) (g field0 :: map g fields)).
  { change (g field0 :: map g fields) with (map g (field0 :: fields)).
    apply Forall_forall. intros x Hx. apply in_map_iff in Hx.
    destruct Hx as [f [<- _]]. rewrite Hg. unfold fits.
    apply Z.mod_pos_bound. apply Z.pow_pos_nonneg; lia. }
  rewrite Encode_defined by assumption. f_equal.
  rewrite EncodeInternal_naive by assumption.
  change (g field0 :: map g fields) with (map g (field0 :: fields)).
  rewrite (map_ext g (fun f => f mod 2 ^ FieldBits c) Hg).
  apply naive_interleave_low_bits; (lia || assumption).
Qed.

Lemma Encode_after_InputMask_witness :
  exists m,
    InputMask cfg_3_10_4 = Some m
    /\ Encode cfg_3_10_4 (built cfg_3_10_4) (Z.land 4294967295 m)
         (map (fun f => Z.land f m) [70000; 5000]) =
       Some (naive_interleave 3 10 [4294967295; 70000; 5000]).
Proof.
  apply (Encode_after_InputMask cfg_3_10_4 (built cfg_3_10_4) 4294967295 [70000; 5000]);
    try reflexivity.
  unfold int_digits. simpl. lia.
Defined.

(** ** Table reads *)

Lemma LookupField_traced_reads c this I field :
  config_facts c ->
  Forall (fun i => 0 <= i < 2 ^ LutBits c) (snd (LookupField_traced c this field I)).
Proof.
  intros Hf. revert field.
  assert (Hidx : forall field,
            0 <= to_size_t (Z.land field (ChunkMask c)) < 2 ^ LutBits c).
  { intros field. rewrite to_size_t_small by now apply ChunkMask_index_size_t.
    rewrite <- (LutSize_exact c Hf). now apply ChunkMask_index. }
  induction I as [|i0 args IH]; intros field; [constructor|].
  destruct args as [|i1 args].
  - cbn [LookupField_traced snd]. constructor; [apply Hidx | constructor].
  - specialize (IH (Z.shiftr field (LutBits c))).
    change (LookupField_traced c this field (i0 :: i1 :: args)) with
      (let (hi, reads) :=
         LookupField_traced c this (Z.shiftr field (LutBits c)) (i1 :: args) in
       (to_T c (Z.lor (Z.shiftl hi (to_size_t (Dimensions c * LutBits c)))
                      (to_T c (at_ this (to_size_t (Z.land field (ChunkMask c)))))),
        to_size_t (Z.land field (ChunkMask c)) :: reads)).
    destruct (LookupField_traced c this (Z.shiftr field (LutBits c)) (i1 :: args))
      as [hi reads].
    cbn [snd] in IH |- *. constructor; [apply Hidx | assumption].
Qed.

Lemma EncodeInternal_traced_spec c this fields field1 :
  config_facts c ->
  fst (EncodeInternal_traced c this field1 fields) = EncodeInternal c this field1 fields
  /\ Z.of_nat (length (snd (EncodeInternal_traced c this field1 fields)))
     = Z.of_nat (length (field1 :: fields)) * ChunkCount c
  /\ Forall (fun i => 0 <= i < 2 ^ LutBits c)
            (snd (EncodeInternal_traced c this field1 fields)).
Proof.
  intros Hf. destruct (ChunkCount_pack c Hf) as [_ Hcc].
  revert field1. induction fields as [|f rest IH]; intros field1.
  - cbn [EncodeInternal_traced EncodeInternal length].
    destruct (LookupField_traced_spec c this (make_index_sequence (ChunkCount c)) field1)
      as [Hv Hn].
    split; [assumption|]. split.
    + rewrite Hn, Hcc. lia.
    + now apply LookupField_traced_reads.
  - cbn [EncodeInternal_traced EncodeInternal].
    destruct (IH f) as [IHv [IHn IHr]].
    destruct (LookupField_traced_spec c this (make_index_sequence (ChunkCount c)) field1)
      as [Hv Hn].
    pose proof (LookupField_traced_reads c this (make_index_sequence (ChunkCount c))
                  field1 Hf) as Hr.
    destruct (EncodeInternal_traced c this f rest) as [hi reads_hi].
    destruct (LookupField_traced c this field1 (make_index_sequence (ChunkCount c)))
      as [lo reads_lo].
    cbn [fst snd] in *. subst hi lo.
    split; [reflexivity|]. split.
    + rewrite length_app, Nat2Z.inj_add, IHn, Hn, Hcc. cbn [length]. lia.
    + apply Forall_app. now split.
Qed.

(** X16. One [Encode] call reads the table exactly
    [Dimensions * ChunkCount] times, and every read is at an index inside
    the table. *)
Theorem Encode_lookups c this field0 fields :
  valid_config c = true ->
  construct c = Some this ->
  Z.of_nat (length (field0 :: fields)) = Dimensions c ->
  Encode c this field0 fields = Some (fst (EncodeInternal_traced c this field0 fields))
  /\ Z.of_nat (length (snd (EncodeInternal_traced c this field0 fields)))
     = Dimensions c * ChunkCount c
  /\ Forall (fun i => 0 <= i < Z.of_nat (length (LookupTable this)))
            (snd (EncodeInternal_traced c this field0 fields)).
Proof.
  intros Hv Hc Hlen.
  apply valid_config_facts in Hv. apply construct_table in Hc.
  destruct (EncodeInternal_traced_spec c this fields field0 Hv) as [Ev [En Er]].
  split; [|split].
  - rewrite Ev. now apply Encode_defined.
  - now rewrite En, Hlen.
  - rewrite Hc. unfold BuildLut.
    rewrite length_map, make_index_sequence_length, (LutSize_exact c Hv).
    destruct Hv.
    pose proof (Z.pow_pos_nonneg 2 (LutBits c) ltac:(lia) ltac:(lia)).
    rewrite Z2Nat.id by lia. assumption.
Qed.

Lemma Encode_lookups_witness :
  Encode cfg_3_10_4 (built cfg_3_10_4) 1000 [513; 77]
  = Some (fst (EncodeInternal_traced cfg_3_10_4 (built cfg_3_10_4) 1000 [513; 77]))
  /\ Z.of_nat (length (snd (EncodeInternal_traced cfg_3_10_4 (built cfg_3_10_4)
                              1000 [513; 77])))
     = 3 * ChunkCount cfg_3_10_4
  /\ Forall (fun i => 0 <= i < Z.of_nat (length (LookupTable (built cfg_3_10_4))))
            (snd (EncodeInternal_traced cfg_3_10_4 (built cfg_3_10_4) 1000 [513; 77])).
Proof.
  apply (Encode_lookups cfg_3_10_4 (built cfg_3_10_4) 1000 [513; 77]); reflexivity.
Defined.

(** X17. The chunked lookups of one field compose to the direct spread: for
    a [T] of at most 64 bits, [LookupField] of a field over the
    [ChunkCount] chunks is [SplitByN<ChunkCount * LutBits>(field,
    Dimensions)] converted to [T]. *)
Theorem LookupField_is_SplitByN c this field :
  valid_config c = true ->
  construct c = Some this ->
  digits (T c) <= 64 ->
  LookupField c this field (make_index_sequence (ChunkCount c)) =
  to_T c (mortonnd.SplitByN (Z.to_nat (ChunkCount c * LutBits c)) field (Dimensions c)).
Proof.
  intros Hv Hc Hw.
  apply valid_config_facts in Hv. apply construct_table in Hc.
  destruct (ChunkCount_pack c Hv) as [Hne Hlen].
  pose proof Hv as [].
  pose proof (ChunkCount_covers c ltac:(lia) ltac:(lia)) as Hcov.
  apply Z.bits_inj'. intros p Hp.
  rewrite LookupField_testbit by assumption.
  unfold to_T. rewrite to_unsigned_testbit by nia.
  rewrite SplitByN_testbit_wrap by lia.
  rewrite Hlen, Z2Nat.id by nia. unfold field_bit.
  destruct (Z.ltb_spec p (digits (T c))); [|reflexivity].
  destruct (Z.ltb_spec p 64); [|lia]. reflexivity.
Qed.

Lemma LookupField_is_SplitByN_witness :
  LookupField MortonNDLutEncoder_3D_64 (built MortonNDLutEncoder_3D_64) 1234567
    (make_index_sequence (ChunkCount MortonNDLutEncoder_3D_64)) =
  to_T MortonNDLutEncoder_3D_64
    (mortonnd.SplitByN (Z.to_nat (ChunkCount MortonNDLutEncoder_3D_64 * 11)) 1234567 3).
Proof.
  apply (LookupField_is_SplitByN MortonNDLutEncoder_3D_64
           (built MortonNDLutEncoder_3D_64) 1234567);
    first [reflexivity | simpl; lia].
Defined.

(** X18. [ChunkCount] lies between 1 and [FieldBits], is 1 exactly when
    [LutBits] is at least [FieldBits], and a wider lookup never needs more
    chunks: for the same [FieldBits], [LutBits <= LutBits'] gives
    [ChunkCount' <= ChunkCount]. *)
Theorem ChunkCount_bounds c c' :
  0 < FieldBits c < 2 ^ 64 -> 0 < LutBits c ->
  FieldBits c' = FieldBits c -> LutBits c <= LutBits c' ->
  1 <= ChunkCount c <= FieldBits c
  /\ (ChunkCount c = 1 <-> FieldBits c <= LutBits c)
  /\ ChunkCount c' <= ChunkCount c.
Proof.
  intros HF HL HF' HL'.
  pose proof (ChunkCount_covers c HF HL) as Hc.
  pose proof (ChunkCount_covers c' ltac:(lia) ltac:(lia)) as Hc'.
  rewrite HF' in Hc'.
  assert (H1 : 1 <= ChunkCount c) by nia.
  split; [split; [assumption|nia]|]. split.
  - split; intros H; [rewrite H in Hc; lia | nia].
  - nia.
Qed.

Lemma ChunkCount_bounds_witness :
  1 <= ChunkCount (cfg_2_16 4) <= 16
  /\ (ChunkCount (cfg_2_16 4) = 1 <-> 16 <= 4)
  /\ ChunkCount (cfg_2_16 8) <= ChunkCount (cfg_2_16 4).
Proof.
  apply (ChunkCount_bounds (cfg_2_16 4) (cfg_2_16 8)); simpl; lia.
Defined.

(** ** Order *)

Lemma lor_disjoint_add a b : Z.land a b = 0 -> Z.lor a b = a + b.
Proof.
  intros H. rewrite <- (Z.lxor_lor a b H). symmetry. now apply Z.add_nocarry_lxor.
Qed.

Lemma mod_pow2_succ x n :
  0 <= n -> x mod 2 ^ (n + 1) = x mod 2 ^ n + Z.b2z (Z.testbit x n) * 2 ^ n.
Proof.
  intros Hn. rewrite Z.pow_add_r, Z.pow_1_r by lia.
  rewrite Z.rem_mul_r by (try apply Z.pow_nonzero; lia).
  rewrite Z.testbit_spec' by assumption. lia.
Qed.

Lemma interleave_bits_range D k field n :
  1 <= D -> 0 <= k < D ->
  0 <= interleave_bits D k field n < 2 ^ (k + D * Z.of_nat n).
Proof.
  intros HD Hk.
  assert (Hnn : 0 <= interleave_bits D k field n)
    by (apply interleave_bits_nonneg; lia).
  split; [assumption|].
  apply bits_above_bound; [nia | assumption |].
  intros p Hp. rewrite interleave_bits_testbit by (assumption || nia).
  assert (Z.of_nat n <= p / D) by (apply div_ge_iff; lia).
  destruct (Z.ltb_spec (p / D) (Z.of_nat n)); [lia|].
  now rewrite andb_false_r.
Qed.

Lemma interleave_bits_succ_add D k field n :
  1 <= D -> 0 <= k < D ->
  interleave_bits D k field (S n) =
  interleave_bits D k field n
  + Z.b2z (Z.testbit field (Z.of_nat n)) * 2 ^ (k + D * Z.of_nat n).
Proof.
  intros HD Hk. cbn [interleave_bits].
  rewrite lor_disjoint_add; [now rewrite Z.shiftl_mul_pow2 by nia|].
  apply Z.bits_inj'. intros p Hp.
  rewrite Z.land_spec, Z.bits_0, b2z_shift_testbit by nia.
  destruct (Z.eqb_spec p (k + D * Z.of_nat n)) as [->|]; [|apply andb_false_r].
  rewrite (testbit_above _ (k + D * Z.of_nat n));
    [reflexivity | now apply interleave_bits_range | nia].
Qed.

Lemma interleave_bits_monotone D k n :
  1 <= D -> 0 <= k < D ->
  forall x x', x mod 2 ^ Z.of_nat n < x' mod 2 ^ Z.of_nat n ->
               interleave_bits D k x n < interleave_bits D k x' n.
Proof.
  intros HD Hk. induction n as [|n IH]; intros x x' Hlt.
  - simpl in Hlt. rewrite !Z.mod_1_r in Hlt. lia.
  - rewrite !interleave_bits_succ_add by assumption.
    rewrite Nat2Z.inj_succ in Hlt. unfold Z.succ in Hlt.
    rewrite !mod_pow2_succ in Hlt by lia.
    pose proof (Z.mod_pos_bound x (2 ^ Z.of_nat n) ltac:(apply Z.pow_pos_nonneg; lia)).
    pose proof (Z.mod_pos_bound x' (2 ^ Z.of_nat n) ltac:(apply Z.pow_pos_nonneg; lia)).
    pose proof (interleave_bits_range D k x n HD Hk).
    pose proof (interleave_bits_range D k x' n HD Hk).
    specialize (IH x x').
    destruct (Z.testbit x (Z.of_nat n)), (Z.testbit x' (Z.of_nat n));
      cbn [Z.b2z] in *; lia.
Qed.

Lemma interleave_from_cons_add D F k f rest :
  1 <= D -> 0 <= F -> 0 <= k -> k + 1 + Z.of_nat (length rest) <= D ->
  interleave_from D F k (f :: rest) =
  interleave_bits D k f (Z.to_nat F) + interleave_from D F (k + 1) rest.
Proof.
  intros HD HF Hk Hlen. cbn [interleave_from].
  apply lor_disjoint_add.
  apply Z.bits_inj'. intros p Hp.
  rewrite Z.land_spec, Z.bits_0.
  rewrite interleave_bits_testbit, interleave_from_testbit by lia.
  destruct (Z.eqb_spec (p mod D) k); [|reflexivity].
  destruct (Z.leb_spec (k + 1) (p mod D)); [lia|].
  now rewrite andb_false_r.
Qed.

Lemma interleave_from_monotone D F post x x' :
  1 <= D -> 0 <= F ->
  x mod 2 ^ F < x' mod 2 ^ F ->
  forall pre k,
    0 <= k -> k + Z.of_nat (length (pre ++ x :: post)) <= D ->
    interleave_from D F k (pre ++ x :: post) < interleave_from D F k (pre ++ x' :: post).
Proof.
  intros HD HF Hlt.
  induction pre as [|a pre IH]; intros k Hk Hlen.
  - cbn [app] in *. cbn [length] in Hlen.
    rewrite !interleave_from_cons_add by lia.
    pose proof (interleave_bits_monotone D k (Z.to_nat F) HD ltac:(lia) x x') as M.
    rewrite Z2Nat.id in M by lia. specialize (M Hlt). lia.
  - cbn [app] in *. cbn [length] in Hlen.
    rewrite !interleave_from_cons_add
      by (rewrite ?length_app in *; cbn [length] in *; lia).
    specialize (IH (k + 1) ltac:(lia) ltac:(lia)). lia.
Qed.

(** X19. The Z-order is monotone in every coordinate: raising one field of
    an in-range tuple, the others unchanged, raises the code. *)
Theorem Encode_monotone c this pre post x x' f0 fs g0 gs :
  valid_config c = true ->
  construct c = Some this ->
  f0 :: fs = pre ++ x :: post ->
  g0 :: gs = pre ++ x' :: post ->
  Z.of_nat (length (f0 :: fs)) = Dimensions c ->
  Forall (fits (FieldBits c)) (f0 :: fs) ->
  Forall (fits (FieldBits c)) (g0 :: gs) ->
  x < x' ->
  exists r r',
    Encode c this f0 fs = Some r /\ Encode c this g0 gs = Some r' /\ r < r'.
Proof.
  intros Hv Hc Ef Eg Hlen Hff Hfg Hlt.
  apply valid_config_facts in Hv. apply construct_table in Hc.
  pose proof Hv as [].
  assert (Hlen' : Z.of_nat (length (g0 :: gs)) = Dimensions c).
  { rewrite Eg. rewrite Ef in Hlen. rewrite length_app in *. cbn [length] in *. lia. }
  exists (EncodeInternal c this f0 fs), (EncodeInternal c this g0 gs).
  rewrite !Encode_defined by assumption.
  split; [reflexivity|]. split; [reflexivity|].
  rewrite !EncodeInternal_naive by assumption.
  assert (Hx : fits (FieldBits c) x).
  { rewrite Ef in Hff. apply Forall_app in Hff. destruct Hff as [_ H].
    now inversion H. }
  assert (Hx' : fits (FieldBits c) x').
  { rewrite Eg in Hfg. apply Forall_app in Hfg. destruct Hfg as [_ H].
    now inversion H. }
  rewrite Ef, Eg. unfold naive_interleave.
  apply interleave_from_monotone; try lia.
  - unfold fits in *. rewrite !Z.mod_small by lia. assumption.
  - rewrite <- Ef. lia.
Qed.

Lemma Encode_monotone_witness :
  exists r r',
    Encode cfg_3_10_4 (built cfg_3_10_4) 1000 [513; 77] = Some r
    /\ Encode cfg_3_10_4 (built cfg_3_10_4) 1000 [514; 77] = Some r'
    /\ r < r'.
Proof.
  apply (Encode_monotone cfg_3_10_4 (built cfg_3_10_4) [1000] [77] 513 514
           1000 [513; 77] 1000 [514; 77]);
    try reflexivity; try lia; repeat constructor; unfold fits; simpl; lia.
Defined.

(** * The prototype [MortonCode] *)

Lemma to_unsigned_lor_inner w a e :
  0 <= w -> to_unsigned w (Z.lor a (to_unsigned w e)) = to_unsigned w (Z.lor a e).
Proof.
  intros Hw. apply Z.bits_inj'. intros p Hp.
  rewrite !to_unsigned_testbit, !Z.lor_spec, to_unsigned_testbit by assumption.
  destruct (p <? w); [reflexivity|]. cbn [andb]. reflexivity.
Qed.

(** The prototype's spreader on an input of at most [n] bits. *)
Lemma Split1ByN_testbit c n x q :
  1 <= MortonCode.Fields c -> 0 <= digits (MortonCode.InputType c) ->
  0 <= x < 2 ^ Z.of_nat n -> 0 <= q ->
  Z.testbit (MortonCode.Split1ByN c x n) q =
  (q <? digits (MortonCode.InputType c))
  && (q mod MortonCode.Fields c =? 0)
  && (q / MortonCode.Fields c <? Z.of_nat n)
  && Z.testbit x (q / MortonCode.Fields c).
Proof.
  intros Hs Hw. set (s := MortonCode.Fields c) in *.
  set (w := digits (MortonCode.InputType c)) in *.
  revert x q. induction n as [|n IH]; intros x q Hx Hq;
    pose proof (Z.div_mod q s ltac:(lia)) as E;
    pose proof (Z.mod_pos_bound q s ltac:(lia)) as B;
    pose proof (Z.div_pos q s Hq ltac:(lia)) as Q.
  - cbn [MortonCode.Split1ByN]. simpl in Hx.
    replace x with 0 by lia. rewrite !Z.bits_0.
    now rewrite andb_false_r.
  - cbn [MortonCode.Split1ByN]. unfold MortonCode.to_In. fold w. fold s.
    rewrite to_unsigned_testbit, Z.lor_spec, Z.land_spec, testbit_1 by assumption.
    assert (Hx' : 0 <= Z.shiftr x 1 < 2 ^ Z.of_nat n).
    { rewrite Z.shiftr_div_pow2 by lia. rewrite Nat2Z.inj_succ, Z.pow_succ_r in Hx by lia.
      change (2 ^ 1) with 2. split; [apply Z.div_pos; lia|].
      apply Z.div_lt_upper_bound; lia. }
    destruct (Z.ltb_spec q w) as [Hqw|]; [|reflexivity]. cbn [andb].
    destruct (Z.ltb_spec q s) as [Hlt|Hge].
    + rewrite Z.shiftl_spec_low by assumption. cbn [orb].
      rewrite Z.div_small by lia.
      destruct (Z.eqb_spec q 0) as [->|Hne].
      * rewrite Z.mod_0_l by lia. cbn. now rewrite andb_true_r.
      * rewrite Z.mod_small by lia.
        destruct (Z.eqb_spec q 0); [lia|]. now rewrite !andb_false_r.
    + rewrite Z.shiftl_spec by assumption.
      rewrite IH by (assumption || lia).
      destruct (group_shift s q Hs Hge) as [-> ->].
      rewrite Z.shiftr_spec by lia.
      replace (q / s - 1 + 1) with (q / s) by lia.
      destruct (Z.eqb_spec q 0); [lia|]. rewrite andb_false_r, orb_false_r.
      destruct (Z.ltb_spec (q - s) w); [|lia]. cbn [andb].
      destruct (Z.eqb_spec (q mod s) 0) as [Hm|]; [|reflexivity]. cbn [andb].
      destruct (Z.ltb_spec (q / s - 1) (Z.of_nat n)),
               (Z.ltb_spec (q / s) (Z.of_nat (S n)));
        (reflexivity || lia).
Qed.

Lemma proto_construct c this :
  MortonCode.construct c = Some this ->
  MortonCode.LookupTable this
  = MortonCode.BuildLut c (make_index_sequence (MortonCode.LutSize c))
  /\ MortonCode.ChunkMask this
     = MortonCode.to_In c (Z.shiftl 1 (MortonCode.Bits c) - 1).
Proof.
  unfold MortonCode.construct. destruct (0 <? MortonCode.Fields c); [|discriminate].
  intros E. inversion E. now split.
Qed.

Lemma proto_ChunkMask_bits c this q :
  MortonCode.construct c = Some this ->
  0 <= MortonCode.Bits c -> 0 <= digits (MortonCode.InputType c) -> 0 <= q ->
  Z.testbit (MortonCode.ChunkMask this) q =
  (q <? digits (MortonCode.InputType c)) && (q <? MortonCode.Bits c).
Proof.
  intros Hc HB Hw Hq. destruct (proto_construct c this Hc) as [_ ->].
  unfold MortonCode.to_In. rewrite to_unsigned_testbit by assumption.
  change (Z.shiftl 1 (MortonCode.Bits c) - 1) with (Z.ones (MortonCode.Bits c)).
  destruct (Z.ltb_spec q (MortonCode.Bits c)).
  - now rewrite Z.ones_spec_low by lia.
  - now rewrite Z.ones_spec_high by lia.
Qed.

Lemma proto_make_index_sequence_in N i :
  In i (make_index_sequence N) -> 0 <= i < N.
Proof.
  unfold make_index_sequence. intros H. apply in_map_iff in H.
  destruct H as [n [<- Hn]]. apply in_seq in Hn. lia.
Qed.

(** With an [InputType] wide enough for every entry, the prototype's table
    is the table of the corresponding one-chunk encoder. *)
Lemma proto_table c :
  config_facts (MortonCode.as_encoder c) ->
  MortonCode.Fields c * (MortonCode.Bits c - 1) + 1 <= digits (MortonCode.InputType c) ->
  MortonCode.BuildLut c (make_index_sequence (MortonCode.LutSize c))
  = BuildLut (MortonCode.as_encoder c)
      (make_index_sequence (LutSize (MortonCode.as_encoder c))).
Proof.
  intros Hf Hw. pose proof Hf as []. cbn [MortonCode.as_encoder Dimensions FieldBits
    LutBits T] in *.
  unfold MortonCode.BuildLut, BuildLut.
  change (LutSize (MortonCode.as_encoder c)) with (MortonCode.LutSize c).
  apply map_ext_in. intros i Hi.
  apply proto_make_index_sequence_in in Hi.
  change (MortonCode.LutSize c) with (LutSize (MortonCode.as_encoder c)) in Hi.
  rewrite (LutSize_exact _ Hf) in Hi.
  cbn [MortonCode.as_encoder LutBits] in Hi.
  rewrite (SplitByN_LutValue_exact _ i Hf).
  cbn [MortonCode.as_encoder Dimensions LutBits].
  assert (Hbw : MortonCode.Bits c <= digits (MortonCode.InputType c)) by nia.
  assert (Hpow : 2 ^ MortonCode.Bits c <= 2 ^ digits (MortonCode.InputType c))
    by (apply Z.pow_le_mono_r; lia).
  unfold MortonCode.to_In. rewrite to_unsigned_small by lia.
  apply Z.bits_inj'. intros q Hq.
  rewrite Split1ByN_testbit by (rewrite ?Z2Nat.id by lia; lia).
  rewrite SplitByN_testbit_wrap by lia.
  pose proof (Z.div_mod q (MortonCode.Fields c) ltac:(lia)) as E.
  destruct (Z.eqb_spec (q mod MortonCode.Fields c) 0) as [Hm|];
    [|now rewrite !andb_false_r].
  destruct (Z.ltb_spec (q / MortonCode.Fields c) (Z.of_nat (Z.to_nat (MortonCode.Bits c))));
    [|now rewrite !andb_false_r].
  destruct (Z.ltb_spec q (digits (MortonCode.InputType c))); [|nia].
  destruct (Z.ltb_spec q 64); [|nia].
  reflexivity.
Qed.

Lemma proto_EncodeInternal c this fields field1 :
  config_facts (MortonCode.as_encoder c) ->
  MortonCode.Bits c <= 30 ->
  MortonCode.Fields c * (MortonCode.Bits c - 1) + 1 <= digits (MortonCode.InputType c) ->
  MortonCode.construct c = Some this ->
  MortonCode.EncodeInternal c this field1 fields
  = EncodeInternal (MortonCode.as_encoder c) (built (MortonCode.as_encoder c))
      field1 fields.
Proof.
  intros Hf HB Hw Hc. pose proof Hf as [].
  cbn [MortonCode.as_encoder Dimensions FieldBits LutBits T] in *.
  destruct (proto_construct c this Hc) as [Htab Hmask].
  assert (Hbw : MortonCode.Bits c <= digits (MortonCode.InputType c)) by nia.
  assert (HCM : MortonCode.ChunkMask this = ChunkMask (MortonCode.as_encoder c)).
  { rewrite Hmask, (ChunkMask_exact _ Hf). cbn [MortonCode.as_encoder LutBits].
    unfold MortonCode.to_In.
    change (Z.shiftl 1 (MortonCode.Bits c) - 1) with (Z.ones (MortonCode.Bits c)).
    apply to_unsigned_small. rewrite Z.ones_equiv.
    assert (2 ^ MortonCode.Bits c <= 2 ^ digits (MortonCode.InputType c))
      by (apply Z.pow_le_mono_r; lia).
    pose proof (Z.pow_pos_nonneg 2 (MortonCode.Bits c) ltac:(lia) ltac:(lia)). lia. }
  assert (Hat : forall i, MortonCode.at_ this i = at_ (built (MortonCode.as_encoder c)) i).
  { intros i. unfold MortonCode.at_, at_, built. cbn [LookupTable].
    rewrite Htab. now rewrite proto_table. }
  assert (HCC : make_index_sequence (ChunkCount (MortonCode.as_encoder c)) = [0]).
  { rewrite ChunkCount_formula by (cbn [MortonCode.as_encoder FieldBits LutBits]; lia).
    cbn [MortonCode.as_encoder FieldBits LutBits].
    rewrite Z.div_small by lia. reflexivity. }
  assert (HLF : forall field,
            LookupField (MortonCode.as_encoder c) (built (MortonCode.as_encoder c)) field
              (make_index_sequence (ChunkCount (MortonCode.as_encoder c)))
            = to_T (MortonCode.as_encoder c)
                (MortonCode.LookupField c this field
                   [MortonCode.index_sequence (make_index_sequence (MortonCode.Chunks c))])).
  { intros field. rewrite HCC. cbn [LookupField MortonCode.LookupField].
    now rewrite HCM, Hat. }
  revert field1. induction fields as [|f rest IH]; intros field1.
  - cbn [MortonCode.EncodeInternal EncodeInternal]. now rewrite HLF.
  - cbn [MortonCode.EncodeInternal EncodeInternal]. rewrite HLF, IH.
    unfold MortonCode.to_Out, to_T. cbn [MortonCode.as_encoder T].
    symmetry. apply to_unsigned_lor_inner. nia.
Qed.



Lemma proto_LookupField_low_bits c this field :
  MortonCode.construct c = Some this ->
  0 <= MortonCode.Bits c -> 0 <= digits (MortonCode.InputType c) ->
  Z.land (field mod 2 ^ MortonCode.Bits c) (MortonCode.ChunkMask this)
  = Z.land field (MortonCode.ChunkMask this).
Proof.
  intros Hc HB Hw. apply Z.bits_inj'. intros q Hq.
  rewrite !Z.land_spec, (proto_ChunkMask_bits c this q Hc HB Hw Hq).
  destruct (Z.ltb_spec q (MortonCode.Bits c)).
  - now rewrite Z.mod_pow2_bits_low by lia.
  - now rewrite !andb_false_r.
Qed.



Lemma proto_table_at c this i :
  MortonCode.construct c = Some this ->
  0 <= MortonCode.Bits c <= 30 ->
  MortonCode.Bits c <= digits (MortonCode.InputType c) ->
  0 <= i < 2 ^ MortonCode.Bits c ->
  MortonCode.at_ this i = MortonCode.Split1ByN c i (Z.to_nat (MortonCode.Bits c)).
Proof.
  intros Hc HB Hw Hi. destruct (proto_construct c this Hc) as [Htab _].
  unfold MortonCode.at_. rewrite Htab. unfold MortonCode.BuildLut, MortonCode.LutSize.
  rewrite pow_2, Z2Nat.id by lia.
  set (g := fun i => MortonCode.Split1ByN c (MortonCode.to_In c i)
                       (Z.to_nat (MortonCode.Bits c))).
  rewrite (nth_indep _ 0 (g 0))
    by (rewrite length_map, make_index_sequence_length; lia).
  rewrite map_nth, make_index_sequence_nth by assumption.
  unfold g, MortonCode.to_In. rewrite to_unsigned_small; [reflexivity|].
  assert (2 ^ MortonCode.Bits c <= 2 ^ digits (MortonCode.InputType c))
    by (apply Z.pow_le_mono_r; lia).
  lia.
Qed.

Lemma proto_EncodeInternal_zero c this n field1 :
  0 <= digits (MortonCode.OutputType c) ->
  (forall field, field = field1 \/ field = 0 ->
     MortonCode.LookupField c this field
       [MortonCode.index_sequence (make_index_sequence (MortonCode.Chunks c))] = 0) ->
  MortonCode.EncodeInternal c this field1 (repeat 0 n) = 0.
Proof.
  intros Hw HLF.
  assert (Hz : forall m, MortonCode.EncodeInternal c this 0 (repeat 0 m) = 0).
  { induction m as [|m IH].
    - cbn [repeat MortonCode.EncodeInternal]. rewrite HLF by (now right). reflexivity.
    - cbn [repeat MortonCode.EncodeInternal]. rewrite HLF, IH by (now right).
      reflexivity. }
  destruct n as [|n].
  - cbn [repeat MortonCode.EncodeInternal]. rewrite HLF by (now left). reflexivity.
  - cbn [repeat MortonCode.EncodeInternal]. rewrite HLF, Hz by (now left).
    reflexivity.
Qed.


